(** * A shallow embedding of the diagonal-Sudoku solver [solution.py]

    The Python program works on a dictionary from box names (["A1"] ..
    ["I9"]) to strings of candidate digits.  The dictionary is embedded as
    an association list in insertion order (the order Python iterates it
    in), strings stay strings, a missing key raises [KeyError] as it does
    in Python, and the two loops that have no syntactic bound (the
    [while] of [reduce_puzzle] and the recursion of [search]) take a fuel
    argument that is shown to be sufficient. *)

From Stdlib Require Import String Ascii List Arith Lia Bool Permutation.
From Stdlib Require Import NArith.
Import ListNotations.
Open Scope string_scope.
Open Scope list_scope.

(** ** Results of Python computations *)

Inductive exn : Type := KeyError | IndexError | ValueError | TypeError.

Inductive res (A : Type) : Type :=
| Val (a : A)
| Raise (e : exn)
| OutOfFuel.
Arguments Val {A} a.
Arguments Raise {A} e.
Arguments OutOfFuel {A}.

Definition bind {A B : Type} (m : res A) (k : A -> res B) : res B :=
  match m with
  | Val a => k a
  | Raise e => Raise e
  | OutOfFuel => OutOfFuel
  end.

Notation "x <- m ;; k" := (bind m (fun x => k))
  (at level 61, m at next level, right associativity).

(** ** Strings of candidates *)

Definition chars (s : string) : list ascii := list_ascii_of_string s.

(** [c in s] for a one-character [c]. *)
Fixpoint contains (c : ascii) (s : string) : bool :=
  match s with
  | EmptyString => false
  | String a s' => if Ascii.eqb a c then true else contains c s'
  end.

(** [s.replace(c, '')] for a one-character [c]: every occurrence goes. *)
Fixpoint remove_char (c : ascii) (s : string) : string :=
  match s with
  | EmptyString => EmptyString
  | String a s' =>
      if Ascii.eqb a c then remove_char c s' else String a (remove_char c s')
  end.

(** ** Dictionaries in insertion order *)

Definition dict (V : Type) : Type := list (string * V).

Definition keys {V : Type} (d : dict V) : list string := map fst d.
Definition dict_values {V : Type} (d : dict V) : list V := map snd d.

Fixpoint lookup {V : Type} (d : dict V) (k : string) : option V :=
  match d with
  | [] => None
  | (k', x) :: d' => if String.eqb k' k then Some x else lookup d' k
  end.

(** [d[k]]: raises [KeyError] on a missing key. *)
Definition getitem {V : Type} (d : dict V) (k : string) : res V :=
  match lookup d k with
  | Some x => Val x
  | None => Raise KeyError
  end.

(** [d[k] = x]: an existing key keeps its position, a new one goes last. *)
Fixpoint setitem {V : Type} (d : dict V) (k : string) (x : V) : dict V :=
  match d with
  | [] => [(k, x)]
  | (k', y) :: d' =>
      if String.eqb k' k then (k', x) :: d' else (k', y) :: setitem d' k x
  end.

Definition board : Type := dict string.

(** ** utils.py *)

(** Modelled from the spec: [rows], [cols], [cross] and [boxes] of the
    absent module [utils] -- the fixed 81-element coordinate space, 9 rows
    by 9 columns, a box being named by its row letter and column digit. *)
Definition rows : string := "ABCDEFGHI".
Definition cols : string := "123456789".

Definition cross (a b : string) : list string :=
  flat_map (fun x => map (fun y => String x (String y EmptyString)) (chars b))
           (chars a).

Definition boxes : list string := cross rows cols.

(** Modelled from the spec: [assign_value] of the absent module [utils] --
    the cell is assigned the value; the observer that records the solving
    history does not act on the board and is left out. *)
Definition assign_value (values : board) (box value : string) : board :=
  setitem values box value.

(** Modelled from the spec: [grid2values] of the absent module [utils] --
    an 81-character row-major string where ['.'] is an unknown cell, which
    starts with all nine candidates. *)
Definition grid2values (grid : string) : board :=
  map (fun '(val, key) =>
         if Ascii.eqb val "."%char then (key, "123456789")
         else (key, String val EmptyString))
      (combine (chars grid) boxes).

(** ** Unit topology (lines 5-15) *)

Definition mem (s : string) (l : list string) : bool :=
  existsb (String.eqb s) l.

(** [l[start:stop:step]] for non-negative arguments and a positive step. *)
Definition slice {A : Type} (start stop step : nat) (l : list A) : list A :=
  flat_map (fun i =>
              if ((start <=? i) && (i <? stop)
                  && ((i - start) mod step =? 0))%nat
              then match nth_error l i with Some x => [x] | None => [] end
              else [])
           (seq 0 (length l)).

Definition row_units : list (list string) :=
  map (fun r => cross (String r EmptyString) cols) (chars rows).
Definition column_units : list (list string) :=
  map (fun c => cross rows (String c EmptyString)) (chars cols).
Definition square_units : list (list string) :=
  flat_map (fun rs => map (fun cs => cross rs cs) ["123"; "456"; "789"])
           ["ABC"; "DEF"; "GHI"].
Definition diagonal_units : list (list string) :=
  [slice 0 81 10 boxes; slice 8 73 8 boxes].

Definition unitlist : list (list string) :=
  Eval vm_compute in
    (row_units ++ column_units ++ square_units) ++ diagonal_units.

Definition units_of (s : string) : list (list string) :=
  filter (fun u => mem s u) unitlist.

(** [set(sum(units[s], [])) - set([s])].  A Python set has no specified
    order; the list fixes one, and no result below depends on it. *)
Definition peers_of (s : string) : list string :=
  filter (fun p => negb (String.eqb p s))
         (nodup string_dec (concat (units_of s))).

Definition units : dict (list (list string)) :=
  Eval vm_compute in map (fun s => (s, units_of s)) boxes.

Definition peers : dict (list string) :=
  Eval vm_compute in map (fun s => (s, peers_of s)) boxes.

(** ** naked_twins (lines 17-57) *)

Definition pair : Type := (string * string)%type.

(** Two tuples that are the same [frozenset]. *)
Definition same_pair (p q : pair) : bool :=
  (String.eqb (fst p) (fst q) && String.eqb (snd p) (snd q))
  || (String.eqb (fst p) (snd q) && String.eqb (snd p) (fst q)).

(** [twins.add(frozenset((box, twin)))] *)
Definition add_pair (p : pair) (twins : list pair) : list pair :=
  if existsb (same_pair p) twins then twins else twins ++ [p].

Definition doubles (values : board) : list string :=
  map fst (filter (fun kv => String.length (snd kv) =? 2)%nat values).

Fixpoint twins_of_box (values : board) (box : string) (box_peers : list string)
    (twins : list pair) : res (list pair) :=
  match box_peers with
  | [] => Val twins
  | twin :: rest =>
      s <- getitem values box ;;
      t <- getitem values twin ;;
      twins_of_box values box rest
        (if String.eqb s t then add_pair (box, twin) twins else twins)
  end.

Fixpoint find_twins (values : board) (dbl : list string) (twins : list pair)
    : res (list pair) :=
  match dbl with
  | [] => Val twins
  | box :: rest =>
      box_peers <- getitem peers box ;;
      twins' <- twins_of_box values box box_peers twins ;;
      find_twins values rest twins'
  end.

(** [peers[twin1].intersection(peers[twin2])] *)
Definition intersection (a b : list string) : list string :=
  filter (fun x => mem x b) a.

Definition removal : Type := (string * ascii)%type.

Fixpoint removals_of_pair (values : board) (twin1 : string)
    (common_peers : list string) : res (list removal) :=
  match common_peers with
  | [] => Val []
  | box :: rest =>
      s1 <- getitem values twin1 ;;
      match s1 with
      | String first_value (String second_value _) =>
          s <- getitem values box ;;
          more <- removals_of_pair values twin1 rest ;;
          Val ((if contains first_value s then [(box, first_value)] else [])
               ++ (if contains second_value s then [(box, second_value)] else [])
               ++ more)
      | _ => Raise IndexError
      end
  end.

Fixpoint values_to_replace (values : board) (twins : list pair)
    : res (list removal) :=
  match twins with
  | [] => Val []
  | (twin1, twin2) :: rest =>
      p1 <- getitem peers twin1 ;;
      p2 <- getitem peers twin2 ;;
      here <- removals_of_pair values twin1 (intersection p1 p2) ;;
      more <- values_to_replace values rest ;;
      Val (here ++ more)
  end.

Fixpoint apply_removals (rs : list removal) (values : board) : res board :=
  match rs with
  | [] => Val values
  | (box, value) :: rest =>
      s <- getitem values box ;;
      apply_removals rest (assign_value values box (remove_char value s))
  end.

Definition naked_twins (values : board) : res board :=
  twins <- find_twins values (doubles values) [] ;;
  to_replace <- values_to_replace values twins ;;
  apply_removals to_replace values.

(** ** eliminate (lines 60-79) *)

Fixpoint eliminate_peers (box_value : ascii) (box_peers : list string)
    (values : board) : res board :=
  match box_peers with
  | [] => Val values
  | peer :: rest =>
      s <- getitem values peer ;;
      eliminate_peers box_value rest
        (assign_value values peer (remove_char box_value s))
  end.

Fixpoint eliminate_loop (ks : list string) (values : board) : res board :=
  match ks with
  | [] => Val values
  | box :: rest =>
      s <- getitem values box ;;
      match s with
      | String box_value EmptyString =>
          box_peers <- getitem peers box ;;
          values' <- eliminate_peers box_value box_peers values ;;
          eliminate_loop rest values'
      | _ => eliminate_loop rest values
      end
  end.

Definition eliminate (values : board) : res board :=
  eliminate_loop (keys values) values.

(** ** only_choice (lines 82-102) *)

Fixpoint boxes_with_value (values : board) (value : ascii) (unit : list string)
    : res (list string) :=
  match unit with
  | [] => Val []
  | box :: rest =>
      s <- getitem values box ;;
      more <- boxes_with_value values value rest ;;
      Val (if contains value s then box :: more else more)
  end.

Fixpoint only_choice_unit (unit : list string) (digits : list ascii)
    (values : board) : res board :=
  match digits with
  | [] => Val values
  | value :: rest =>
      found <- boxes_with_value values value unit ;;
      match found with
      | [box] =>
          only_choice_unit unit rest
            (assign_value values box (String value EmptyString))
      | _ => only_choice_unit unit rest values
      end
  end.

Fixpoint only_choice_loop (us : list (list string)) (values : board)
    : res board :=
  match us with
  | [] => Val values
  | unit :: rest =>
      values' <- only_choice_unit unit (chars "123456789") values ;;
      only_choice_loop rest values'
  end.

Definition only_choice (values : board) : res board :=
  only_choice_loop unitlist values.

(** ** reduce_puzzle (lines 105-134) *)

Inductive pyval : Type :=
| PDict (values : board)
| PFalse
| PNone.

Definition solved_count (values : board) : nat :=
  length (filter (fun kv => String.length (snd kv) =? 1)%nat values).

(** One trip through the body of the [while] loop, without the test. *)
Definition propagate (values : board) : res board :=
  values <- eliminate values ;;
  values <- only_choice values ;;
  naked_twins values.

Fixpoint reduce_loop (fuel : nat) (values : board) : res board :=
  match fuel with
  | O => OutOfFuel
  | S fuel' =>
      let solved_values_before := solved_count values in
      values <- propagate values ;;
      let solved_values_after := solved_count values in
      if (solved_values_before =? solved_values_after)%nat
      then Val values
      else reduce_loop fuel' values
  end.

Definition has_empty (values : board) : bool :=
  existsb (String.eqb EmptyString) (dict_values values).

Definition reduce_puzzle (fuel : nat) (values : board) : res pyval :=
  values <- reduce_loop fuel values ;;
  if has_empty values then Val PFalse else Val (PDict values).

(** ** search (lines 137-173) and solve (lines 176-189) *)

(** [all(len(values[box]) == 1 for box in boxes)] *)
Fixpoint all_single (values : board) (bs : list string) : res bool :=
  match bs with
  | [] => Val true
  | box :: rest =>
      s <- getitem values box ;;
      if (String.length s =? 1)%nat then all_single values rest else Val false
  end.

Definition boxes_lengths (values : board) : list (string * nat) :=
  map (fun kv => (fst kv, String.length (snd kv)))
      (filter (fun kv => 1 <? String.length (snd kv))%nat values).

(** [sorted(l, key=lambda box: box[1])]: a stable sort on the length. *)
Fixpoint insert_by_length (x : string * nat) (l : list (string * nat))
    : list (string * nat) :=
  match l with
  | [] => [x]
  | y :: l' =>
      if (snd x <=? snd y)%nat then x :: l else y :: insert_by_length x l'
  end.

Definition sorted_by_length (l : list (string * nat)) : list (string * nat) :=
  fold_right insert_by_length [] l.

(** Python's order on tuples [(str, int)]: by the string, then the number. *)
Definition tuple_ltb (a b : string * nat) : bool :=
  match String.compare (fst a) (fst b) with
  | Lt => true
  | Eq => (snd a <? snd b)%nat
  | Gt => false
  end.

(** [min(l)]: the first least element; [ValueError] on an empty list. *)
Definition py_min (l : list (string * nat)) : res (string * nat) :=
  match l with
  | [] => Raise ValueError
  | x :: l' => Val (fold_left (fun m y => if tuple_ltb y m then y else m) l' x)
  end.

Definition chosen_box (values : board) : res string :=
  m <- py_min (sorted_by_length (boxes_lengths values)) ;;
  Val (fst m).

(** Truth value of what [search] returns: a dictionary is true unless
    empty, [False] and [None] are false. *)
Definition truthy (v : pyval) : bool :=
  match v with
  | PDict [] => false
  | PDict _ => true
  | PFalse => false
  | PNone => false
  end.

(** The [for value in values[chosen_box]] loop; [rec] is the recursive call
    of [search].  [display] only prints and is left out.  Falling off the
    end of the loop, the Python function returns [None]. *)
Fixpoint try_values (rec : board -> res pyval) (values : board)
    (box : string) (candidates : list ascii) : res pyval :=
  match candidates with
  | [] => Val PNone
  | value :: rest =>
      let new_grid := setitem values box (String value EmptyString) in
      attempt <- rec new_grid ;;
      if truthy attempt then Val attempt
      else try_values rec values box rest
  end.

Fixpoint search (fuel : nat) (values : board) : res pyval :=
  match fuel with
  | O => OutOfFuel
  | S fuel' =>
      reduced <- reduce_puzzle fuel values ;;
      match reduced with
      | PDict values =>
          solved <- all_single values boxes ;;
          if solved then Val (PDict values)
          else
            box <- chosen_box values ;;
            s <- getitem values box ;;
            try_values (search fuel') values box (chars s)
      | PFalse => Val PFalse
      | PNone => Raise TypeError
      end
  end.

Definition solve (fuel : nat) (grid : string) : res pyval :=
  search fuel (grid2values grid).

(** * Vocabulary of the specification *)

(** [subseq s' s]: [s'] is [s] with some characters left out, the others
    in their order. *)
Inductive subseq : string -> string -> Prop :=
| subseq_nil : subseq EmptyString EmptyString
| subseq_skip a s' s : subseq s' s -> subseq s' (String a s)
| subseq_keep a s' s : subseq s' s -> subseq (String a s') (String a s).

(** [shrinks v' v]: the same boxes in the same order, and each candidate
    string of [v'] is a subsequence of the one [v] has there. *)
Definition shrinks (v' v : board) : Prop :=
  Forall2 (fun a b => fst a = fst b /\ subseq (snd a) (snd b)) v' v.

(** The number of candidates left on the board. *)
Definition total_len (values : board) : nat :=
  list_sum (map (fun kv => String.length (snd kv)) values).

(** Every candidate of every box is one of the digits 1-9. *)
Definition candidates_ok (values : board) : bool :=
  forallb (fun kv => forallb (fun c => contains c "123456789") (chars (snd kv)))
          values.

(** No box holds the same string as one of its peers. *)
Definition no_conflict (values : board) : bool :=
  forallb (fun bp =>
             forallb (fun p =>
                        match lookup values (fst bp), lookup values p with
                        | Some s, Some t => negb (String.eqb s t)
                        | _, _ => false
                        end)
                     (snd bp))
          peers.

Definition all_solved (values : board) : bool :=
  forallb (fun kv => String.length (snd kv) =? 1)%nat values.

(** The digits a board assigns to the boxes of a unit, in the unit's order. *)
Definition assigned (values : board) (unit : list string) : list ascii :=
  flat_map (fun box => match lookup values box with
                       | Some s => chars s
                       | None => []
                       end) unit.

(** What a list of removals leaves of the string [s] of box [box]. *)
Definition strip (rs : list removal) (box : string) (s : string) : string :=
  fold_left (fun s r => if String.eqb (fst r) box then remove_char (snd r) s
                        else s) rs s.

(** [stalls_at v w]: the [while] loop started on [v] leaves with board [w],
    the result of the first pass that keeps the count of solved boxes. *)
Inductive stalls_at : board -> board -> Prop :=
| stall_now v v' :
    propagate v = Val v' -> solved_count v = solved_count v' ->
    stalls_at v v'
| stall_later v v' w :
    propagate v = Val v' -> solved_count v <> solved_count v' ->
    stalls_at v' w -> stalls_at v w.

(** [visits v u]: [u] is a board the loop started on [v] goes through: the
    board at the start of a pass, after [eliminate], after [only_choice] or
    after [naked_twins]. *)
Inductive visits : board -> board -> Prop :=
| visit_start v : visits v v
| visit_eliminate v e : eliminate v = Val e -> visits v e
| visit_only_choice v e o :
    eliminate v = Val e -> only_choice e = Val o -> visits v o
| visit_naked_twins v v' : propagate v = Val v' -> visits v v'
| visit_next v v' u :
    propagate v = Val v' -> solved_count v <> solved_count v' ->
    visits v' u -> visits v u.

(** [common_peer t1 t2 box]: [box] is in
    [peers[t1].intersection(peers[t2])]. *)
Definition common_peer (t1 t2 box : string) : Prop :=
  exists p1 p2, lookup peers t1 = Some p1 /\ lookup peers t2 = Some p2
                /\ In box (intersection p1 p2).

(** [twin_digit values t d]: [d] is [values[t][0]] or [values[t][1]]. *)
Definition twin_digit (values : board) (t : string) (d : ascii) : Prop :=
  exists a b rest, lookup values t = Some (String a (String b rest))
                   /\ (d = a \/ d = b).

(** [is_twin values box twin]: what the detection loop tests on the board
    [values] -- a box with two candidates and a peer with the same string. *)
Definition is_twin (values : board) (box twin : string) : Prop :=
  In box (doubles values)
  /\ (exists ps, lookup peers box = Some ps /\ In twin ps)
  /\ exists s, lookup values box = Some s /\ lookup values twin = Some s.

(** No two entries of the list are the same unordered pair. *)
Definition recorded_once (twins : list pair) : Prop :=
  ForallOrdPairs (fun p q => same_pair p q = false) twins.

(** The 29 units of the diagonal Sudoku, written out: the nine rows, the
    nine columns, the nine 3x3 squares and the two main diagonals. *)
Definition the_29_units : list (list string) :=
  [ ["A1"; "A2"; "A3"; "A4"; "A5"; "A6"; "A7"; "A8"; "A9"];
    ["B1"; "B2"; "B3"; "B4"; "B5"; "B6"; "B7"; "B8"; "B9"];
    ["C1"; "C2"; "C3"; "C4"; "C5"; "C6"; "C7"; "C8"; "C9"];
    ["D1"; "D2"; "D3"; "D4"; "D5"; "D6"; "D7"; "D8"; "D9"];
    ["E1"; "E2"; "E3"; "E4"; "E5"; "E6"; "E7"; "E8"; "E9"];
    ["F1"; "F2"; "F3"; "F4"; "F5"; "F6"; "F7"; "F8"; "F9"];
    ["G1"; "G2"; "G3"; "G4"; "G5"; "G6"; "G7"; "G8"; "G9"];
    ["H1"; "H2"; "H3"; "H4"; "H5"; "H6"; "H7"; "H8"; "H9"];
    ["I1"; "I2"; "I3"; "I4"; "I5"; "I6"; "I7"; "I8"; "I9"];
    ["A1"; "B1"; "C1"; "D1"; "E1"; "F1"; "G1"; "H1"; "I1"];
    ["A2"; "B2"; "C2"; "D2"; "E2"; "F2"; "G2"; "H2"; "I2"];
    ["A3"; "B3"; "C3"; "D3"; "E3"; "F3"; "G3"; "H3"; "I3"];
    ["A4"; "B4"; "C4"; "D4"; "E4"; "F4"; "G4"; "H4"; "I4"];
    ["A5"; "B5"; "C5"; "D5"; "E5"; "F5"; "G5"; "H5"; "I5"];
    ["A6"; "B6"; "C6"; "D6"; "E6"; "F6"; "G6"; "H6"; "I6"];
    ["A7"; "B7"; "C7"; "D7"; "E7"; "F7"; "G7"; "H7"; "I7"];
    ["A8"; "B8"; "C8"; "D8"; "E8"; "F8"; "G8"; "H8"; "I8"];
    ["A9"; "B9"; "C9"; "D9"; "E9"; "F9"; "G9"; "H9"; "I9"];
    ["A1"; "A2"; "A3"; "B1"; "B2"; "B3"; "C1"; "C2"; "C3"];
    ["A4"; "A5"; "A6"; "B4"; "B5"; "B6"; "C4"; "C5"; "C6"];
    ["A7"; "A8"; "A9"; "B7"; "B8"; "B9"; "C7"; "C8"; "C9"];
    ["D1"; "D2"; "D3"; "E1"; "E2"; "E3"; "F1"; "F2"; "F3"];
    ["D4"; "D5"; "D6"; "E4"; "E5"; "E6"; "F4"; "F5"; "F6"];
    ["D7"; "D8"; "D9"; "E7"; "E8"; "E9"; "F7"; "F8"; "F9"];
    ["G1"; "G2"; "G3"; "H1"; "H2"; "H3"; "I1"; "I2"; "I3"];
    ["G4"; "G5"; "G6"; "H4"; "H5"; "H6"; "I4"; "I5"; "I6"];
    ["G7"; "G8"; "G9"; "H7"; "H8"; "H9"; "I7"; "I8"; "I9"];
    ["A1"; "B2"; "C3"; "D4"; "E5"; "F6"; "G7"; "H8"; "I9"];
    ["A9"; "B8"; "C7"; "D6"; "E5"; "F4"; "G3"; "H2"; "I1"] ].

(** A solved board: one digit in every box, and in every one of the 29
    units the digits are 1-9, each once. *)
Definition Solved (values : board) : Prop :=
  (forall box, In box boxes ->
     exists c, lookup values box = Some (String c EmptyString))
  /\ forall unit, In unit the_29_units ->
       (forall box, In box unit ->
          exists c, lookup values box = Some (String c EmptyString))
       /\ Permutation (assigned values unit) (chars "123456789").

(** [peer_of a b]: [b] is another box of one of the 29 units of [a]. *)
Definition peer_of (a b : string) : Prop :=
  a <> b /\ exists u, In u the_29_units /\ In a u /\ In b u.

(** [twin_pair values box twin]: two peers that hold the same string of
    exactly two candidates. *)
Definition twin_pair (values : board) (box twin : string) : Prop :=
  (exists s, lookup values box = Some s /\ String.length s = 2
             /\ lookup values twin = Some s)
  /\ peer_of box twin.


(** A filled board that obeys the rules: the 81 boxes, one digit 1-9 in
    each, and no box with the digit of one of its peers. *)
Definition solution (sigma : board) : Prop :=
  keys sigma = boxes /\ all_solved sigma = true
  /\ no_conflict sigma = true /\ candidates_ok sigma = true.

(** [fits sigma values]: the digit [sigma] has in a box is one of the
    candidates [values] has there. *)
Definition fits (sigma values : board) : Prop :=
  forall box c, lookup sigma box = Some (String c EmptyString) ->
    exists s, lookup values box = Some s /\ contains c s = true.

(** [fits], decided on a board [sigma] with one digit in every box. *)
Definition fitsb (sigma values : board) : bool :=
  forallb (fun kv =>
             match snd kv, lookup values (fst kv) with
             | String c EmptyString, Some s => contains c s
             | _, _ => false
             end) sigma.

(** Python's [<=] on strings. *)
Definition str_le (a b : string) : Prop := String.compare a b <> Gt.

(** [settles v' v]: every box of [v] is in [v'] as it was, or reduced to a
    single one of its candidates. *)
Definition settles (v' v : board) : Prop :=
  forall box s, lookup v box = Some s ->
    lookup v' box = Some s
    \/ exists c, contains c s = true
                 /\ lookup v' box = Some (String c EmptyString).

(** The characters of [s] that pass the test [f], in their order. *)
Fixpoint string_filter (f : ascii -> bool) (s : string) : string :=
  match s with
  | EmptyString => EmptyString
  | String a s' =>
      if f a then String a (string_filter f s') else string_filter f s'
  end.

(** [prescribed values box d]: the input board asks for digit [d] to be
    taken from [box] -- [d] is one of the two digits of a twin pair of which
    [box] is a shared peer, and [box] has [d]. *)
Definition prescribed (values : board) (box : string) (d : ascii) : Prop :=
  exists t1 t2, is_twin values t1 t2 /\ common_peer t1 t2 box
                /\ twin_digit values t1 d
                /\ exists s, lookup values box = Some s /\ contains d s = true.

(** ** Boards used as examples *)

Definition diag_sudoku_grid : string :=
  "2.............62....1....7...6..8...3...9...7...6..4...4....8....52.............3".

Definition diag_sudoku_solution : string :=
  "267945381853716249491823576576438192384192657129657438642379815935281764718564923".

(** The solution above with the 6 of A2 replaced by the 2 of A1. *)
Definition repeated_digit_grid : string :=
  "227945381853716249491823576576438192384192657129657438642379815935281764718564923".

Definition empty_grid : string :=
  ".................................................................................".

(** Two twin pairs on an otherwise open board: A1 and A2 with 2 and 3, A9
    and I9 with 3 and 5.  A1 is on the diagonal of I9 and in the row of A9. *)
Definition two_pairs_board : board :=
  setitem (setitem (setitem (setitem (grid2values empty_grid)
    "A1" "23") "A2" "23") "A9" "35") "I9" "35".

(** A grid that stops after two characters. *)
Definition short_grid : string := "12".

(** One twin pair, A1 and A2 with 2 and 6, on an otherwise open board. *)
Definition one_pair_board : board :=
  setitem (setitem (grid2values empty_grid) "A1" "26") "A2" "26".

(** Two fives in row A. *)
Definition twice_five_grid : string :=
  "55...............................................................................".

(** A single clue, at D5. *)
Definition one_clue_grid : string :=
  "...............................1.................................................".

(** Boxes A1-A4 are left with the three digits 6, 7, 8 between them. *)
Definition pigeonhole_grid : string :=
  "....123459....................9..................................................".

(** * Proof tools *)

(** Splits a hypothesis [x <- m ;; k = Val r] into the two computations. *)
Ltac bind_inv H :=
  match type of H with
  | bind ?m _ = Val _ =>
      let a := fresh "a" in
      let E := fresh "E" in
      destruct m as [a | ? | ] eqn:E; simpl in H; [ | discriminate H ..]
  end.

Create HintDb sudoku.

(** * Strings *)

Lemma contains_In (c : ascii) (s : string) :
  contains c s = true <-> In c (chars s).
Proof.
  induction s as [ | a s IH]; simpl.
  - split; [discriminate | tauto].
  - destruct (Ascii.eqb a c) eqn:E.
    + apply Ascii.eqb_eq in E. tauto.
    + apply Ascii.eqb_neq in E. rewrite IH. tauto.
Qed.

Lemma subseq_refl (s : string) : subseq s s.
Proof. induction s; constructor; assumption. Qed.

Lemma subseq_length (s' s : string) :
  subseq s' s -> String.length s' <= String.length s.
Proof. induction 1; simpl; lia. Qed.

Lemma subseq_same_length (s' s : string) :
  subseq s' s -> String.length s' = String.length s -> s' = s.
Proof.
  induction 1 as [ | a s' s H IH | a s' s H IH]; simpl; intros E.
  - reflexivity.
  - apply subseq_length in H. lia.
  - f_equal. apply IH. lia.
Qed.

Lemma subseq_trans (s1 s2 s3 : string) :
  subseq s1 s2 -> subseq s2 s3 -> subseq s1 s3.
Proof.
  intros H12 H23. revert s1 H12.
  induction H23 as [ | a s2 s3 H IH | a s2 s3 H IH]; intros s1 H12.
  - assumption.
  - constructor. apply IH. assumption.
  - inversion H12 as [ | ? ? ? H' | ? ? ? H']; subst;
      constructor; apply IH; exact H'.
Qed.

Lemma subseq_antisym (s' s : string) : subseq s' s -> subseq s s' -> s' = s.
Proof.
  intros H1 H2. apply subseq_same_length; [assumption | ].
  apply subseq_length in H1. apply subseq_length in H2. lia.
Qed.

Lemma subseq_contains (c : ascii) (s' s : string) :
  subseq s' s -> contains c s' = true -> contains c s = true.
Proof.
  induction 1 as [ | a s' s H IH | a s' s H IH]; simpl; intros E.
  - discriminate.
  - destruct (Ascii.eqb a c); auto.
  - destruct (Ascii.eqb a c); auto.
Qed.

Lemma subseq_empty (s : string) : subseq EmptyString s.
Proof. induction s; constructor; assumption. Qed.

Lemma remove_char_subseq (c : ascii) (s : string) : subseq (remove_char c s) s.
Proof.
  induction s as [ | a s IH]; simpl.
  - constructor.
  - destruct (Ascii.eqb a c); constructor; assumption.
Qed.

Lemma contains_remove_char (c d : ascii) (s : string) :
  contains d (remove_char c s) = contains d s && negb (Ascii.eqb d c).
Proof.
  induction s as [ | a s IH]; simpl.
  - reflexivity.
  - destruct (Ascii.eqb a c) eqn:Eac; simpl.
    + apply Ascii.eqb_eq in Eac. subst a. rewrite IH.
      rewrite (Ascii.eqb_sym c d).
      destruct (Ascii.eqb d c); simpl; [ | reflexivity].
      rewrite andb_false_r. reflexivity.
    + rewrite IH. destruct (Ascii.eqb a d) eqn:Ead; simpl; [ | reflexivity].
      apply Ascii.eqb_eq in Ead. subst d. rewrite Eac. reflexivity.
Qed.

Lemma remove_char_absent (c : ascii) (s : string) :
  contains c s = false -> remove_char c s = s.
Proof.
  induction s as [ | a s IH]; simpl; intros E.
  - reflexivity.
  - destruct (Ascii.eqb a c); [discriminate | ]. rewrite IH; auto.
Qed.

Lemma remove_char_fixed (c : ascii) (s : string) :
  remove_char c s = s -> contains c s = false.
Proof.
  intros E. destruct (contains c s) eqn:C; [ | reflexivity].
  assert (H : contains c (remove_char c s) = false).
  { rewrite contains_remove_char, Ascii.eqb_refl, andb_false_r. reflexivity. }
  rewrite E in H. congruence.
Qed.

Lemma contains_single_subseq (c : ascii) (s : string) :
  contains c s = true -> subseq (String c EmptyString) s.
Proof.
  induction s as [ | a s IH]; simpl; intros E.
  - discriminate.
  - destruct (Ascii.eqb a c) eqn:Eac.
    + apply Ascii.eqb_eq in Eac. subst a. apply subseq_keep, subseq_empty.
    + apply subseq_skip. auto.
Qed.

Lemma length_one (s : string) :
  String.length s = 1 -> exists c, s = String c EmptyString.
Proof.
  destruct s as [ | c [ | ? ?]]; simpl; intros E; try discriminate.
  exists c. reflexivity.
Qed.

#[export] Hint Resolve subseq_refl remove_char_subseq subseq_empty
  contains_single_subseq : sudoku.

(** * Dictionaries *)

Section Dict.
Context {V : Type}.
Implicit Types (d : dict V) (k : string) (x : V).

Lemma lookup_In_keys d k x : lookup d k = Some x -> In k (keys d).
Proof.
  induction d as [ | [k' y] d IH]; simpl; [discriminate | ].
  destruct (String.eqb k' k) eqn:E.
  - apply String.eqb_eq in E. auto.
  - auto.
Qed.

Lemma In_keys_lookup d k : In k (keys d) -> exists x, lookup d k = Some x.
Proof.
  induction d as [ | [k' y] d IH]; simpl; [tauto | ].
  intros [E | H].
  - subst. rewrite String.eqb_refl. eauto.
  - destruct (String.eqb k' k); eauto.
Qed.

Lemma lookup_In d k x : lookup d k = Some x -> In (k, x) d.
Proof.
  induction d as [ | [k' y] d IH]; simpl; [discriminate | ].
  destruct (String.eqb k' k) eqn:E.
  - apply String.eqb_eq in E. intros [= ->]. subst. auto.
  - auto.
Qed.

Lemma In_lookup d k x : NoDup (keys d) -> In (k, x) d -> lookup d k = Some x.
Proof.
  induction d as [ | [k' y] d IH]; simpl; [tauto | ].
  intros N [E | H].
  - injection E as -> ->. rewrite String.eqb_refl. reflexivity.
  - inversion N as [ | ? ? Hn N']; subst.
    destruct (String.eqb k' k) eqn:E.
    + apply String.eqb_eq in E. subst. exfalso. apply Hn.
      change (In (fst (k, x)) (map fst d)). apply in_map. assumption.
    + auto.
Qed.

Lemma getitem_Val d k x : getitem d k = Val x <-> lookup d k = Some x.
Proof.
  unfold getitem. destruct (lookup d k); split; congruence.
Qed.

Lemma lookup_setitem_same d k x : lookup (setitem d k x) k = Some x.
Proof.
  induction d as [ | [k' y] d IH]; simpl.
  - rewrite String.eqb_refl. reflexivity.
  - destruct (String.eqb k' k) eqn:E; simpl; rewrite E; auto.
Qed.

Lemma lookup_setitem_other d k k' x :
  k <> k' -> lookup (setitem d k x) k' = lookup d k'.
Proof.
  intros N. apply String.eqb_neq in N.
  induction d as [ | [k0 y] d IH]; simpl.
  - rewrite N. reflexivity.
  - destruct (String.eqb k0 k) eqn:E; simpl.
    + apply String.eqb_eq in E. subst k0. rewrite N. reflexivity.
    + rewrite IH. reflexivity.
Qed.

Lemma lookup_setitem d k k' x :
  lookup (setitem d k x) k' = if String.eqb k k' then Some x else lookup d k'.
Proof.
  destruct (String.eqb k k') eqn:E.
  - apply String.eqb_eq in E. subst. apply lookup_setitem_same.
  - apply String.eqb_neq in E. apply lookup_setitem_other. assumption.
Qed.

Lemma setitem_same d k x : lookup d k = Some x -> setitem d k x = d.
Proof.
  induction d as [ | [k' y] d IH]; simpl; [discriminate | ].
  destruct (String.eqb k' k) eqn:E.
  - intros [= ->]. reflexivity.
  - intros H. rewrite IH; auto.
Qed.

Lemma keys_setitem d k x y : lookup d k = Some y -> keys (setitem d k x) = keys d.
Proof.
  induction d as [ | [k' z] d IH]; simpl; [discriminate | ].
  destruct (String.eqb k' k) eqn:E; simpl.
  - reflexivity.
  - intros H. f_equal. auto.
Qed.
End Dict.

(** * Boards that shrink *)

Lemma shrinks_refl (v : board) : shrinks v v.
Proof. induction v; constructor; auto with sudoku. Qed.

Lemma shrinks_trans (v1 v2 v3 : board) :
  shrinks v1 v2 -> shrinks v2 v3 -> shrinks v1 v3.
Proof.
  intros H12. revert v3.
  induction H12 as [ | a b v1 v2 [Hk Hs] H IH]; intros v3 H23;
    inversion H23 as [ | ? c ? v3' [Hk' Hs'] H']; subst; constructor.
  - split; [congruence | eapply subseq_trans; eassumption].
  - apply IH. assumption.
Qed.

Lemma shrinks_antisym (v' v : board) : shrinks v' v -> shrinks v v' -> v' = v.
Proof.
  induction 1 as [ | [k' s'] [k s] v' v [Hk Hs] H IH]; intros H2.
  - reflexivity.
  - inversion H2 as [ | ? ? ? ? [_ Hs2] H2']; subst. simpl in *. subst k'.
    f_equal; [ | auto]. f_equal. apply subseq_antisym; assumption.
Qed.

Lemma shrinks_keys (v' v : board) : shrinks v' v -> keys v' = keys v.
Proof.
  induction 1 as [ | a b v' v [Hk Hs] H IH]; simpl; [reflexivity | ].
  f_equal; assumption.
Qed.

Lemma shrinks_lookup (v' v : board) (k s : string) :
  shrinks v' v -> lookup v k = Some s ->
  exists s', lookup v' k = Some s' /\ subseq s' s.
Proof.
  induction 1 as [ | [k1 s1] [k2 s2] v' v [Hk Hs] H IH]; simpl in *.
  - discriminate.
  - subst k1. destruct (String.eqb k2 k).
    + intros [= <-]. eauto.
    + assumption.
Qed.

Lemma shrinks_lookup_back (v' v : board) (k s' : string) :
  shrinks v' v -> lookup v' k = Some s' ->
  exists s, lookup v k = Some s /\ subseq s' s.
Proof.
  induction 1 as [ | [k1 s1] [k2 s2] v' v [Hk Hs] H IH]; simpl in *.
  - discriminate.
  - subst k1. destruct (String.eqb k2 k).
    + intros [= <-]. eauto.
    + assumption.
Qed.

Lemma shrinks_setitem (v : board) (k s x : string) :
  lookup v k = Some s -> subseq x s -> shrinks (setitem v k x) v.
Proof.
  induction v as [ | [k' y] v IH]; simpl; [discriminate | ].
  destruct (String.eqb k' k).
  - intros [= ->] Hs. constructor; [simpl; auto | apply shrinks_refl].
  - intros H Hs. constructor; [simpl; auto with sudoku | ].
    apply IH; assumption.
Qed.

Lemma shrinks_total_len (v' v : board) :
  shrinks v' v -> total_len v' <= total_len v.
Proof.
  unfold total_len.
  induction 1 as [ | a b v' v [Hk Hs] H IH]; simpl; [lia | ].
  apply subseq_length in Hs. lia.
Qed.

Lemma shrinks_same_total (v' v : board) :
  shrinks v' v -> total_len v' = total_len v -> v' = v.
Proof.
  induction 1 as [ | [k' s'] [k s] v' v [Hk Hs] H IH]; intros E.
  - reflexivity.
  - simpl in Hk, Hs. subst k'.
    pose proof (subseq_length _ _ Hs) as L.
    pose proof (shrinks_total_len _ _ H) as T.
    unfold total_len in *. simpl in E.
    f_equal.
    + f_equal. apply subseq_same_length; [assumption | lia].
    + apply IH. lia.
Qed.

Lemma has_empty_In (v : board) :
  has_empty v = true <-> exists k, In (k, EmptyString) v.
Proof.
  unfold has_empty, dict_values. rewrite existsb_exists. split.
  - intros [s [H E]]. apply String.eqb_eq in E. subst s.
    apply in_map_iff in H. destruct H as [[k s] [E H]]. simpl in E. subst s.
    eauto.
  - intros [k H]. exists EmptyString. split; [ | reflexivity].
    change EmptyString with (snd (k, EmptyString)). apply in_map. assumption.
Qed.

Lemma has_empty_shrinks (v' v : board) :
  shrinks v' v -> has_empty v = true -> has_empty v' = true.
Proof.
  unfold has_empty, dict_values.
  induction 1 as [ | [k' s'] [k s] v' v [Hk Hs] H IH]; simpl; [auto | ].
  simpl in Hs. intros E. apply orb_true_iff in E. apply orb_true_iff.
  destruct E as [E | E].
  - destruct s; [ | discriminate]. inversion Hs; subst. auto.
  - auto.
Qed.

(** * The unit topology, by evaluation *)

Lemma mem_In (s : string) (l : list string) : mem s l = true <-> In s l.
Proof.
  unfold mem. rewrite existsb_exists. split.
  - intros [x [H E]]. apply String.eqb_eq in E. subst. assumption.
  - intros H. exists s. split; [assumption | apply String.eqb_refl].
Qed.

Lemma boxes_NoDup : NoDup boxes.
Proof.
  assert (H : nodup string_dec boxes = boxes) by (vm_compute; reflexivity).
  rewrite <- H. apply NoDup_nodup.
Qed.

Lemma keys_peers : keys peers = boxes.
Proof. reflexivity. Qed.

Lemma peers_in_boxes (box : string) (ps : list string) :
  lookup peers box = Some ps -> incl ps boxes.
Proof.
  intros H. apply lookup_In in H.
  assert (C : forallb (fun bp => forallb (fun p => mem p boxes) (snd bp)) peers
              = true) by (vm_compute; reflexivity).
  rewrite forallb_forall in C. specialize (C _ H). simpl in C.
  rewrite forallb_forall in C. intros p Hp. apply mem_In, C, Hp.
Qed.

Lemma peers_total (box : string) :
  In box boxes -> exists ps, lookup peers box = Some ps.
Proof. rewrite <- keys_peers. apply In_keys_lookup. Qed.

Lemma peers_irrefl (box : string) (ps : list string) :
  lookup peers box = Some ps -> ~ In box ps.
Proof.
  intros H. apply lookup_In in H.
  assert (C : forallb (fun bp => negb (mem (fst bp) (snd bp))) peers = true)
    by (vm_compute; reflexivity).
  rewrite forallb_forall in C. specialize (C _ H). simpl in C.
  intros Hin. apply mem_In in Hin. rewrite Hin in C. discriminate.
Qed.

(** The units the code derives are the 29 units of the game. *)
Lemma unitlist_explicit : unitlist = the_29_units.
Proof. reflexivity. Qed.

Lemma unit_in_boxes (unit : list string) :
  In unit unitlist -> incl unit boxes.
Proof.
  intros H.
  assert (C : forallb (forallb (fun b => mem b boxes)) unitlist = true)
    by (vm_compute; reflexivity).
  rewrite forallb_forall in C. specialize (C _ H).
  rewrite forallb_forall in C. intros b Hb. apply mem_In, C, Hb.
Qed.

(** Two different boxes of one unit are peers of each other. *)
Lemma unit_peers (unit : list string) (a b : string) :
  In unit unitlist -> In a unit -> In b unit -> a <> b ->
  exists ps, lookup peers a = Some ps /\ In b ps.
Proof.
  intros Hu Ha Hb N.
  assert (C : forallb (fun u =>
                forallb (fun a =>
                  forallb (fun b =>
                    String.eqb a b
                    || match lookup peers a with
                       | Some ps => mem b ps
                       | None => false
                       end) u) u) unitlist = true)
    by (vm_compute; reflexivity).
  rewrite forallb_forall in C. specialize (C _ Hu).
  rewrite forallb_forall in C. specialize (C _ Ha).
  rewrite forallb_forall in C. specialize (C _ Hb).
  apply String.eqb_neq in N. rewrite N, orb_false_l in C.
  destruct (lookup peers a) as [ps | ]; [ | discriminate].
  exists ps. split; [reflexivity | apply mem_In; assumption].
Qed.

Lemma nodup_length_le (l : list string) :
  length (nodup string_dec l) <= length l.
Proof.
  induction l as [ | b l IH]; simpl; [lia | ].
  destruct (in_dec string_dec b l); simpl; lia.
Qed.

Lemma nodup_same_length (l : list string) :
  length (nodup string_dec l) = length l -> NoDup l.
Proof.
  induction l as [ | a l IH]; simpl; intros E; [constructor | ].
  pose proof (nodup_length_le l) as L.
  destruct (in_dec string_dec a l) as [Hin | Hout].
  - lia.
  - simpl in E. constructor; [assumption | apply IH; lia].
Qed.

Lemma unit_shape (unit : list string) :
  In unit unitlist -> NoDup unit /\ length unit = 9.
Proof.
  intros H.
  assert (C : forallb (fun u =>
                (length u =? 9)%nat
                && (length (nodup string_dec u) =? 9)%nat) unitlist = true)
    by (vm_compute; reflexivity).
  rewrite forallb_forall in C. specialize (C _ H).
  apply andb_true_iff in C. destruct C as [C1 C2].
  apply Nat.eqb_eq in C1. apply Nat.eqb_eq in C2. split; [ | assumption].
  apply nodup_same_length. congruence.
Qed.

Arguments peers : simpl never.
Arguments unitlist : simpl never.
Arguments boxes : simpl never.

(** * eliminate *)

Lemma eliminate_peers_shrinks (c : ascii) (ps : list string) (v v' : board) :
  eliminate_peers c ps v = Val v' -> shrinks v' v.
Proof.
  revert v. induction ps as [ | p ps IH]; simpl; intros v H.
  - injection H as <-. apply shrinks_refl.
  - bind_inv H. apply getitem_Val in E. apply IH in H.
    eapply shrinks_trans; [exact H | ].
    eapply shrinks_setitem; eauto with sudoku.
Qed.

Lemma eliminate_loop_shrinks (ks : list string) (v v' : board) :
  eliminate_loop ks v = Val v' -> shrinks v' v.
Proof.
  revert v. induction ks as [ | k ks IH]; simpl; intros v H.
  - injection H as <-. apply shrinks_refl.
  - bind_inv H. destruct a as [ | c [ | ? ?]]; auto.
    bind_inv H. bind_inv H. apply eliminate_peers_shrinks in E1.
    apply IH in H. eapply shrinks_trans; eassumption.
Qed.

Lemma eliminate_shrinks (v v' : board) : eliminate v = Val v' -> shrinks v' v.
Proof. apply eliminate_loop_shrinks. Qed.

Lemma eliminate_peers_total (c : ascii) (ps : list string) (v : board) :
  incl ps (keys v) -> exists v', eliminate_peers c ps v = Val v'.
Proof.
  revert v. induction ps as [ | p ps IH]; simpl; intros v I.
  - eauto.
  - destruct (In_keys_lookup v p) as [s E]; [apply I; simpl; auto | ].
    unfold getitem. rewrite E. simpl. apply IH.
    unfold assign_value. rewrite (keys_setitem _ _ _ _ E).
    intros x Hx. apply I. simpl. auto.
Qed.

Lemma eliminate_loop_total (ks : list string) (v : board) :
  keys v = boxes -> incl ks boxes -> exists v', eliminate_loop ks v = Val v'.
Proof.
  revert v. induction ks as [ | k ks IH]; simpl; intros v K I.
  - eauto.
  - assert (Ik : In k boxes) by (apply I; simpl; auto).
    assert (I' : incl ks boxes) by (intros x Hx; apply I; simpl; auto).
    destruct (In_keys_lookup v k) as [s E]; [rewrite K; assumption | ].
    unfold getitem at 1. rewrite E. simpl.
    destruct s as [ | c [ | ? ?]]; auto.
    destruct (peers_total k Ik) as [ps Ep].
    unfold getitem. rewrite Ep. simpl.
    destruct (eliminate_peers_total c ps v) as [v1 E1].
    { rewrite K. eapply peers_in_boxes; eassumption. }
    rewrite E1. simpl. apply IH; [ | assumption].
    apply eliminate_peers_shrinks, shrinks_keys in E1. congruence.
Qed.

Lemma eliminate_total (v : board) :
  keys v = boxes -> exists v', eliminate v = Val v'.
Proof.
  intros K. apply eliminate_loop_total; [assumption | ].
  rewrite K. apply incl_refl.
Qed.

(** * only_choice *)

Lemma boxes_with_value_In (v : board) (c : ascii) (unit found : list string) :
  boxes_with_value v c unit = Val found ->
  forall box, In box found <->
              In box unit /\ exists s, lookup v box = Some s /\ contains c s = true.
Proof.
  revert found. induction unit as [ | b unit IH]; simpl; intros found H box.
  - injection H as <-. simpl. tauto.
  - bind_inv H. bind_inv H. injection H as <-. apply getitem_Val in E.
    specialize (IH _ eq_refl box).
    destruct (contains c a) eqn:C; simpl; rewrite IH.
    + split.
      * intros [<- | [? ?]]; eauto.
      * intros [[<- | ?] ?]; auto.
    + split.
      * intros [? ?]; auto.
      * intros [[<- | ?] [s [Hs Cs]]]; [congruence | eauto].
Qed.

Lemma boxes_with_value_total (v : board) (c : ascii) (unit : list string) :
  incl unit (keys v) -> exists found, boxes_with_value v c unit = Val found.
Proof.
  induction unit as [ | b unit IH]; simpl; intros I.
  - eauto.
  - destruct (In_keys_lookup v b) as [s E]; [apply I; simpl; auto | ].
    unfold getitem. rewrite E. simpl.
    destruct IH as [found ->]; [intros x Hx; apply I; simpl; auto | ].
    simpl. eauto.
Qed.

Lemma only_choice_unit_shrinks (unit : list string) (ds : list ascii)
    (v v' : board) :
  only_choice_unit unit ds v = Val v' -> shrinks v' v.
Proof.
  revert v. induction ds as [ | c ds IH]; simpl; intros v H.
  - injection H as <-. apply shrinks_refl.
  - bind_inv H. destruct a as [ | box [ | ? ?]]; auto.
    apply IH in H. eapply shrinks_trans; [exact H | ].
    destruct (proj1 (boxes_with_value_In _ _ _ _ E box)) as [_ [s [Hs Cs]]];
      [simpl; auto | ].
    eapply shrinks_setitem; eauto with sudoku.
Qed.

Lemma only_choice_loop_shrinks (us : list (list string)) (v v' : board) :
  only_choice_loop us v = Val v' -> shrinks v' v.
Proof.
  revert v. induction us as [ | u us IH]; cbn [only_choice_loop]; intros v H.
  - injection H as <-. apply shrinks_refl.
  - bind_inv H. apply only_choice_unit_shrinks in E. apply IH in H.
    eapply shrinks_trans; eassumption.
Qed.

Lemma only_choice_shrinks (v v' : board) :
  only_choice v = Val v' -> shrinks v' v.
Proof. apply only_choice_loop_shrinks. Qed.

Lemma only_choice_unit_total (unit : list string) (ds : list ascii) (v : board) :
  incl unit (keys v) -> exists v', only_choice_unit unit ds v = Val v'.
Proof.
  revert v. induction ds as [ | c ds IH]; simpl; intros v I.
  - eauto.
  - destruct (boxes_with_value_total v c unit I) as [found E].
    rewrite E. simpl. destruct found as [ | box [ | ? ?]]; auto.
    apply IH.
    destruct (proj1 (boxes_with_value_In _ _ _ _ E box)) as [_ [s [Hs Cs]]];
      [simpl; auto | ].
    unfold assign_value. rewrite (keys_setitem _ _ _ _ Hs). assumption.
Qed.

Lemma only_choice_loop_total (us : list (list string)) (v : board) :
  keys v = boxes -> (forall u, In u us -> incl u boxes) ->
  exists v', only_choice_loop us v = Val v'.
Proof.
  revert v. induction us as [ | u us IH]; cbn [only_choice_loop]; intros v K I.
  - eauto.
  - destruct (only_choice_unit_total u (chars "123456789") v) as [v1 E].
    { rewrite K. apply I. simpl. auto. }
    rewrite E. cbn [bind]. apply IH; [ | intros; apply I; simpl; auto].
    apply only_choice_unit_shrinks, shrinks_keys in E. congruence.
Qed.

Lemma only_choice_total (v : board) :
  keys v = boxes -> exists v', only_choice v = Val v'.
Proof.
  intros K. apply only_choice_loop_total; [assumption | ].
  intros u. apply unit_in_boxes.
Qed.

(** * naked_twins *)

Lemma intersection_In (a b : list string) (x : string) :
  In x (intersection a b) <-> In x a /\ In x b.
Proof. unfold intersection. rewrite filter_In, mem_In. tauto. Qed.

Lemma same_pair_sym (p q : pair) : same_pair p q = same_pair q p.
Proof.
  unfold same_pair.
  rewrite (String.eqb_sym (fst p) (fst q)), (String.eqb_sym (snd p) (snd q)),
    (String.eqb_sym (fst p) (snd q)), (String.eqb_sym (snd p) (fst q)).
  destruct (String.eqb (fst q) (fst p)), (String.eqb (snd q) (snd p)),
    (String.eqb (snd q) (fst p)), (String.eqb (fst q) (snd p)); reflexivity.
Qed.

Lemma same_pair_spec (a b c d : string) :
  same_pair (a, b) (c, d) = true <-> (a = c /\ b = d) \/ (a = d /\ b = c).
Proof.
  unfold same_pair. simpl.
  rewrite orb_true_iff, !andb_true_iff, !String.eqb_eq. tauto.
Qed.

Lemma recorded_once_snoc (twins : list pair) (p : pair) :
  recorded_once twins -> existsb (same_pair p) twins = false ->
  recorded_once (twins ++ [p]).
Proof.
  unfold recorded_once. induction 1 as [ | q l Hq H IH]; simpl; intros E.
  - constructor; constructor.
  - apply orb_false_iff in E. destruct E as [E1 E2]. constructor.
    + apply Forall_app. split; [assumption | ].
      constructor; [ | constructor]. rewrite same_pair_sym. assumption.
    + apply IH. assumption.
Qed.

Lemma add_pair_once (p : pair) (twins : list pair) :
  recorded_once twins -> recorded_once (add_pair p twins).
Proof.
  intros H. unfold add_pair. destruct (existsb (same_pair p) twins) eqn:E.
  - assumption.
  - apply recorded_once_snoc; assumption.
Qed.

Lemma add_pair_In (p q : pair) (twins : list pair) :
  In q (add_pair p twins) -> In q twins \/ q = p.
Proof.
  unfold add_pair. destruct (existsb (same_pair p) twins); [auto | ].
  rewrite in_app_iff. simpl. intuition.
Qed.

Lemma add_pair_keeps (p q : pair) (twins : list pair) :
  In q twins -> In q (add_pair p twins).
Proof.
  unfold add_pair. destruct (existsb (same_pair p) twins); [auto | ].
  rewrite in_app_iff. auto.
Qed.

Lemma add_pair_recorded (p : pair) (twins : list pair) :
  existsb (same_pair p) (add_pair p twins) = true.
Proof.
  unfold add_pair. destruct (existsb (same_pair p) twins) eqn:E; [assumption | ].
  rewrite existsb_app. simpl. destruct p as [a b].
  assert (S : same_pair (a, b) (a, b) = true) by (apply same_pair_spec; auto).
  rewrite S. simpl. apply orb_true_r.
Qed.

Lemma recorded_keeps (p : pair) (twins twins' : list pair) :
  (forall q, In q twins -> In q twins') ->
  existsb (same_pair p) twins = true -> existsb (same_pair p) twins' = true.
Proof.
  intros I. rewrite !existsb_exists. intros [q [H E]]. eauto.
Qed.

(** The inner detection loop: the pairs it adds, that it adds all of them,
    and that it never records a pair twice. *)
Lemma twins_of_box_spec (v : board) (box : string) (ps : list string)
    (acc twins : list pair) :
  twins_of_box v box ps acc = Val twins ->
  (forall q, In q acc -> In q twins)
  /\ (forall q, In q twins ->
        In q acc \/ (fst q = box /\ In (snd q) ps
                     /\ exists s, lookup v box = Some s
                                  /\ lookup v (snd q) = Some s))
  /\ (forall twin s, In twin ps -> lookup v box = Some s ->
        lookup v twin = Some s ->
        existsb (same_pair (box, twin)) twins = true)
  /\ (recorded_once acc -> recorded_once twins).
Proof.
  revert acc. induction ps as [ | p ps IH]; simpl; intros acc H.
  - injection H as <-. repeat split; auto; intros ? ? [].
  - bind_inv H. bind_inv H. apply getitem_Val in E, E0.
    destruct (IH _ H) as [K [S [C O]]]. clear IH H.
    repeat split.
    + intros q Hq. apply K. destruct (String.eqb a a0); [ | assumption].
      apply add_pair_keeps. assumption.
    + intros q Hq. destruct (S q Hq) as [Hacc | [F [I X]]]; [ | tauto].
      destruct (String.eqb a a0) eqn:Eq; [ | auto].
      apply String.eqb_eq in Eq. subst a0.
      apply add_pair_In in Hacc. destruct Hacc as [? | ->]; [auto | ].
      right. simpl. eauto 6.
    + intros twin s [<- | I] Hb Ht; [ | eauto].
      rewrite Hb in E. rewrite Ht in E0. injection E as <-. injection E0 as <-.
      rewrite String.eqb_refl in K.
      eapply recorded_keeps; [exact K | apply add_pair_recorded].
    + intros R. apply O. destruct (String.eqb a a0); [ | assumption].
      apply add_pair_once. assumption.
Qed.

Lemma find_twins_spec (v : board) (dbl : list string)
    (acc twins : list pair) :
  find_twins v dbl acc = Val twins ->
  (forall q, In q acc -> In q twins)
  /\ (forall q, In q twins ->
        In q acc \/ (In (fst q) dbl
                     /\ (exists ps, lookup peers (fst q) = Some ps
                                    /\ In (snd q) ps)
                     /\ exists s, lookup v (fst q) = Some s
                                  /\ lookup v (snd q) = Some s))
  /\ (forall box twin ps s, In box dbl -> lookup peers box = Some ps ->
        In twin ps -> lookup v box = Some s -> lookup v twin = Some s ->
        existsb (same_pair (box, twin)) twins = true)
  /\ (recorded_once acc -> recorded_once twins).
Proof.
  revert acc. induction dbl as [ | b dbl IH]; cbn [find_twins]; intros acc H.
  - injection H as <-. repeat split; auto; intros ? ? ? ? [].
  - bind_inv H. bind_inv H. apply getitem_Val in E.
    destruct (twins_of_box_spec _ _ _ _ _ E0) as [K1 [S1 [C1 O1]]].
    destruct (IH _ H) as [K [S [C O]]]. clear IH H.
    repeat split.
    + auto.
    + intros q Hq. destruct (S q Hq) as [Hacc | [F X]];
        [ | right; split; [right; exact F | exact X]].
      destruct (S1 q Hacc) as [? | [F [I X]]]; [auto | ].
      right. rewrite F. split; [left; reflexivity | ]. split; eauto.
    + intros box twin ps s [<- | I] Hp Ht Hb Hs; [ | eauto].
      rewrite Hp in E. injection E as <-.
      eapply recorded_keeps; [exact K | eauto].
    + auto.
Qed.

Lemma doubles_In (v : board) (box : string) :
  In box (doubles v) <-> exists s, In (box, s) v /\ String.length s = 2.
Proof.
  unfold doubles. rewrite in_map_iff. split.
  - intros [[k s] [E H]]. simpl in E. subst k. apply filter_In in H.
    destruct H as [H L]. apply Nat.eqb_eq in L. eauto.
  - intros [s [H L]]. exists (box, s). split; [reflexivity | ].
    apply filter_In. split; [assumption | apply Nat.eqb_eq; assumption].
Qed.

Lemma doubles_keys (v : board) : incl (doubles v) (keys v).
Proof.
  intros box H. apply doubles_In in H. destruct H as [s [H _]].
  change box with (fst (box, s)). apply in_map. assumption.
Qed.

Lemma twins_of_box_total (v : board) (box : string) (ps : list string)
    (acc : list pair) :
  In box (keys v) -> incl ps (keys v) ->
  exists twins, twins_of_box v box ps acc = Val twins.
Proof.
  intros Hb. revert acc. induction ps as [ | p ps IH]; simpl; intros acc I.
  - eauto.
  - destruct (In_keys_lookup v box Hb) as [s Es].
    destruct (In_keys_lookup v p) as [t Et]; [apply I; simpl; auto | ].
    unfold getitem. rewrite Es, Et. simpl. apply IH.
    intros x Hx. apply I. simpl. auto.
Qed.

Lemma find_twins_total (v : board) (dbl : list string) (acc : list pair) :
  keys v = boxes -> incl dbl boxes ->
  exists twins, find_twins v dbl acc = Val twins.
Proof.
  intros K. revert acc.
  induction dbl as [ | b dbl IH]; cbn [find_twins]; intros acc I.
  - eauto.
  - assert (Ib : In b boxes) by (apply I; simpl; auto).
    destruct (peers_total b Ib) as [ps Ep].
    unfold getitem. rewrite Ep. cbn [bind].
    destruct (twins_of_box_total v b ps acc) as [tw E].
    { rewrite K. assumption. }
    { rewrite K. eapply peers_in_boxes. eassumption. }
    rewrite E. cbn [bind]. apply IH. intros x Hx. apply I. simpl. auto.
Qed.

Lemma removals_of_pair_spec (v : board) (t1 : string) (cps : list string)
    (rs : list removal) :
  removals_of_pair v t1 cps = Val rs ->
  forall box d,
    In (box, d) rs <->
    In box cps /\ twin_digit v t1 d
    /\ exists s, lookup v box = Some s /\ contains d s = true.
Proof.
  revert rs. induction cps as [ | b cps IH]; simpl; intros rs H box d.
  - injection H as <-. simpl. tauto.
  - bind_inv H. apply getitem_Val in E.
    destruct a as [ | x [ | y rest]]; try discriminate.
    bind_inv H. bind_inv H. injection H as <-. apply getitem_Val in E0.
    specialize (IH _ eq_refl box d). rewrite !in_app_iff, IH. clear IH.
    unfold twin_digit. split.
    + intros [H | [H | H]].
      * destruct (contains x a) eqn:C; [ | destruct H].
        destruct H as [[= <- <-] | []]. eauto 12.
      * destruct (contains y a) eqn:C; [ | destruct H].
        destruct H as [[= <- <-] | []]. eauto 12.
      * tauto.
    + intros [[<- | I] [[x' [y' [r' [L D]]]] [s [Hs C]]]].
      * rewrite E in L. injection L as <- <- <-.
        rewrite E0 in Hs. injection Hs as <-.
        destruct D as [-> | ->]; rewrite C; simpl; auto.
      * right. right. eauto 12.
Qed.

Lemma removals_of_pair_total (v : board) (t1 : string) (cps : list string) :
  (exists a b rest, lookup v t1 = Some (String a (String b rest))) ->
  incl cps (keys v) -> exists rs, removals_of_pair v t1 cps = Val rs.
Proof.
  intros [a [b [rest L]]].
  induction cps as [ | c cps IH]; simpl; intros I.
  - eauto.
  - unfold getitem at 1. rewrite L. simpl.
    destruct (In_keys_lookup v c) as [s Es]; [apply I; simpl; auto | ].
    unfold getitem. rewrite Es. simpl.
    destruct IH as [rs ->]; [intros x Hx; apply I; simpl; auto | ].
    simpl. eauto.
Qed.

Lemma values_to_replace_spec (v : board) (twins : list pair)
    (rs : list removal) :
  values_to_replace v twins = Val rs ->
  forall box d,
    In (box, d) rs <->
    exists t1 t2, In (t1, t2) twins /\ common_peer t1 t2 box
                  /\ twin_digit v t1 d
                  /\ exists s, lookup v box = Some s /\ contains d s = true.
Proof.
  revert rs.
  induction twins as [ | [t1 t2] twins IH]; cbn [values_to_replace];
    intros rs H box d.
  - injection H as <-. simpl. split; [tauto | ]. intros [? [? [[] _]]].
  - bind_inv H. bind_inv H. bind_inv H. bind_inv H. injection H as <-.
    apply getitem_Val in E, E0.
    pose proof (removals_of_pair_spec _ _ _ _ E1 box d) as R.
    specialize (IH _ eq_refl box d). rewrite in_app_iff, R, IH. clear R IH.
    split.
    + intros [[I [D S]] | [u1 [u2 [I X]]]].
      * exists t1, t2. split; [simpl; auto | ]. split; [ | auto].
        exists a, a0. auto.
      * exists u1, u2. split; [simpl; auto | assumption].
    + intros [u1 [u2 [[[= <- <-] | I] [[p1 [p2 [L1 [L2 C]]]] X]]]].
      * left. rewrite E in L1. rewrite E0 in L2.
        injection L1 as <-. injection L2 as <-. tauto.
      * right. exists u1, u2. split; [assumption | ]. split; [ | assumption].
        exists p1, p2. auto.
Qed.

Lemma values_to_replace_total (v : board) (twins : list pair) :
  keys v = boxes ->
  (forall t1 t2, In (t1, t2) twins ->
     In t1 boxes /\ In t2 boxes
     /\ exists a b rest, lookup v t1 = Some (String a (String b rest))) ->
  exists rs, values_to_replace v twins = Val rs.
Proof.
  intros K.
  induction twins as [ | [t1 t2] twins IH]; cbn [values_to_replace]; intros W.
  - eauto.
  - destruct (W t1 t2) as [I1 [I2 L]]; [simpl; auto | ].
    destruct (peers_total t1 I1) as [p1 E1].
    destruct (peers_total t2 I2) as [p2 E2].
    unfold getitem at 1 2. rewrite E1, E2. cbn [bind].
    destruct (removals_of_pair_total v t1 (intersection p1 p2) L) as [here E].
    { rewrite K. intros x Hx. apply intersection_In in Hx.
      eapply peers_in_boxes; [exact E1 | tauto]. }
    rewrite E. cbn [bind].
    destruct IH as [more ->]; [intros; apply W; simpl; auto | ].
    cbn [bind]. eauto.
Qed.

Lemma apply_removals_shrinks (rs : list removal) (v v' : board) :
  apply_removals rs v = Val v' -> shrinks v' v.
Proof.
  revert v. induction rs as [ | [box d] rs IH]; simpl; intros v H.
  - injection H as <-. apply shrinks_refl.
  - bind_inv H. apply getitem_Val in E. apply IH in H.
    eapply shrinks_trans; [exact H | ].
    eapply shrinks_setitem; eauto with sudoku.
Qed.

Lemma apply_removals_total (rs : list removal) (v : board) :
  (forall r, In r rs -> In (fst r) (keys v)) ->
  exists v', apply_removals rs v = Val v'.
Proof.
  revert v. induction rs as [ | [box d] rs IH]; simpl; intros v I.
  - eauto.
  - destruct (In_keys_lookup v box) as [s E]; [apply (I (box, d)); auto | ].
    unfold getitem. rewrite E. simpl. apply IH.
    unfold assign_value. rewrite (keys_setitem _ _ _ _ E). auto.
Qed.

(** The board after the removal loop, box by box, from the board before. *)
Lemma apply_removals_lookup (rs : list removal) (v v' : board)
    (box s : string) :
  apply_removals rs v = Val v' -> lookup v box = Some s ->
  lookup v' box = Some (strip rs box s).
Proof.
  revert v s. induction rs as [ | [b d] rs IH]; simpl; intros v s H L.
  - injection H as <-. assumption.
  - bind_inv H. apply getitem_Val in E.
    apply (IH _ _ H). unfold assign_value. rewrite lookup_setitem.
    destruct (String.eqb b box) eqn:Eb.
    + apply String.eqb_eq in Eb. subst b. congruence.
    + assumption.
Qed.

Lemma strip_contains (rs : list removal) (box s : string) (d : ascii) :
  contains d (strip rs box s) = true <->
  contains d s = true /\ ~ In (box, d) rs.
Proof.
  unfold strip. revert s. induction rs as [ | [b c] rs IH]; simpl; intros s.
  - tauto.
  - rewrite IH. destruct (String.eqb b box) eqn:Eb.
    + apply String.eqb_eq in Eb. subst b.
      rewrite contains_remove_char, andb_true_iff, negb_true_iff,
        Ascii.eqb_neq.
      split.
      * intros [[C N] I]. split; [assumption | ].
        intros [[= ->] | ?]; tauto.
      * intros [C N]. split; [split; [assumption | ] | tauto].
        intros ->. tauto.
    + apply String.eqb_neq in Eb. split.
      * intros [C I]. split; [assumption | ]. intros [[= -> ->] | ?]; tauto.
      * tauto.
Qed.

Lemma strip_subseq (rs : list removal) (box s : string) :
  subseq (strip rs box s) s.
Proof.
  unfold strip. revert s. induction rs as [ | [b c] rs IH]; simpl; intros s.
  - apply subseq_refl.
  - destruct (String.eqb b box); [ | apply IH].
    eapply subseq_trans; [apply IH | apply remove_char_subseq].
Qed.

Lemma strip_untouched (rs : list removal) (box s : string) :
  (forall d, ~ In (box, d) rs) -> strip rs box s = s.
Proof.
  unfold strip. revert s. induction rs as [ | [b c] rs IH]; simpl; intros s N.
  - reflexivity.
  - destruct (String.eqb b box) eqn:Eb.
    + apply String.eqb_eq in Eb. subst b. exfalso. apply (N c). auto.
    + apply IH. intros d I. apply (N d). auto.
Qed.

Lemma naked_twins_shrinks (v v' : board) :
  naked_twins v = Val v' -> shrinks v' v.
Proof.
  unfold naked_twins. intros H. bind_inv H. bind_inv H.
  eapply apply_removals_shrinks. eassumption.
Qed.

Lemma recorded_In (box twin : string) (twins : list pair) :
  existsb (same_pair (box, twin)) twins = true ->
  In (box, twin) twins \/ In (twin, box) twins.
Proof.
  rewrite existsb_exists. intros [[a b] [H S]].
  apply same_pair_spec in S. destruct S as [[-> ->] | [-> ->]]; auto.
Qed.

Lemma twins_are_twins (v : board) (twins : list pair) :
  find_twins v (doubles v) [] = Val twins ->
  forall t1 t2, In (t1, t2) twins -> is_twin v t1 t2.
Proof.
  intros H t1 t2 I. apply find_twins_spec in H.
  destruct H as [_ [S _]]. destruct (S _ I) as [[] | X]. exact X.
Qed.

Lemma twins_complete (v : board) (twins : list pair) :
  find_twins v (doubles v) [] = Val twins ->
  forall box twin, is_twin v box twin ->
                   In (box, twin) twins \/ In (twin, box) twins.
Proof.
  intros H box twin [D [[ps [P I]] [s [L1 L2]]]].
  apply find_twins_spec in H. destruct H as [_ [_ [C _]]].
  apply recorded_In. eauto.
Qed.


Lemma is_twin_two (v : board) (t1 t2 : string) :
  NoDup (keys v) -> is_twin v t1 t2 ->
  exists a b, lookup v t1 = Some (String a (String b EmptyString))
              /\ lookup v t2 = Some (String a (String b EmptyString)).
Proof.
  intros N [D [_ [s [L1 L2]]]]. apply doubles_In in D.
  destruct D as [s' [I Len]]. apply (In_lookup _ _ _ N) in I.
  rewrite L1 in I. injection I as <-.
  destruct s as [ | a [ | b [ | ? ?]]]; try discriminate. eauto.
Qed.

Lemma is_twin_boxes (v : board) (t1 t2 : string) :
  is_twin v t1 t2 -> In t1 boxes /\ In t2 boxes.
Proof.
  intros [_ [[ps [P I]] _]]. split.
  - rewrite <- keys_peers. eapply lookup_In_keys. eassumption.
  - eapply peers_in_boxes; eassumption.
Qed.

Lemma common_peer_not_self (t1 t2 : string) :
  ~ common_peer t1 t2 t1 /\ ~ common_peer t1 t2 t2.
Proof.
  split; intros [p1 [p2 [L1 [L2 I]]]]; apply intersection_In in I.
  - apply (peers_irrefl _ _ L1). tauto.
  - apply (peers_irrefl _ _ L2). tauto.
Qed.

(** On a board with the 81 boxes [naked_twins] runs through its three
    loops without raising. *)
Lemma naked_twins_total (v : board) :
  keys v = boxes ->
  exists twins to_replace v',
    find_twins v (doubles v) [] = Val twins
    /\ values_to_replace v twins = Val to_replace
    /\ apply_removals to_replace v = Val v'
    /\ naked_twins v = Val v'.
Proof.
  intros K.
  assert (N : NoDup (keys v)) by (rewrite K; apply boxes_NoDup).
  destruct (find_twins_total v (doubles v) [] K) as [twins F].
  { rewrite <- K. apply doubles_keys. }
  destruct (values_to_replace_total v twins K) as [rs R].
  { intros t1 t2 I. pose proof (twins_are_twins _ _ F _ _ I) as T.
    destruct (is_twin_boxes _ _ _ T). destruct (is_twin_two _ _ _ N T)
      as [a [b [L _]]]. eauto 6. }
  destruct (apply_removals_total rs v) as [v' A].
  { intros [box d] I. apply (values_to_replace_spec _ _ _ R) in I.
    destruct I as [_ [_ [_ [_ [_ [s [L _]]]]]]].
    eapply lookup_In_keys. eassumption. }
  exists twins, rs, v'. unfold naked_twins. rewrite F. cbn [bind].
  rewrite R. cbn [bind]. auto.
Qed.

(** * One pass of the loop of reduce_puzzle *)

Lemma propagate_shrinks (v v' : board) : propagate v = Val v' -> shrinks v' v.
Proof.
  unfold propagate. intros H. bind_inv H. bind_inv H.
  apply eliminate_shrinks in E. apply only_choice_shrinks in E0.
  apply naked_twins_shrinks in H.
  eapply shrinks_trans; [eassumption | ].
  eapply shrinks_trans; eassumption.
Qed.

Lemma propagate_total (v : board) :
  keys v = boxes ->
  exists e o v', eliminate v = Val e /\ only_choice e = Val o
                 /\ naked_twins o = Val v' /\ propagate v = Val v'.
Proof.
  intros K. destruct (eliminate_total v K) as [e E].
  pose proof (shrinks_keys _ _ (eliminate_shrinks _ _ E)) as Ke.
  destruct (only_choice_total e) as [o O]; [congruence | ].
  pose proof (shrinks_keys _ _ (only_choice_shrinks _ _ O)) as Ko.
  destruct (naked_twins_total o) as [_ [_ [v' [_ [_ [_ T]]]]]]; [congruence | ].
  exists e, o, v'. unfold propagate. rewrite E. cbn [bind]. rewrite O.
  cbn [bind]. auto.
Qed.

Lemma solved_count_shrinks (v' v : board) :
  shrinks v' v -> has_empty v' = false -> solved_count v <= solved_count v'.
Proof.
  unfold solved_count, has_empty, dict_values.
  induction 1 as [ | [k' s'] [k s] v' v [Hk Hs] H IH]; [simpl; lia | ].
  cbn [map existsb filter snd]. intros E.
  apply orb_false_iff in E. destruct E as [E1 E2].
  specialize (IH E2). cbn [snd] in Hs. apply subseq_length in Hs.
  assert (L : String.length s' <> 0).
  { destruct s'; [simpl in E1; discriminate | simpl; lia]. }
  destruct (Nat.eqb_spec (String.length s) 1) as [L1 | L1];
    destruct (Nat.eqb_spec (String.length s') 1) as [L2 | L2];
    cbn [length]; lia.
Qed.

Lemma propagate_parts (v v' : board) :
  propagate v = Val v' ->
  exists e o, eliminate v = Val e /\ only_choice e = Val o
              /\ naked_twins o = Val v'.
Proof.
  unfold propagate. intros H. bind_inv H. bind_inv H. eauto.
Qed.

Lemma reduce_loop_stalls (fuel : nat) (v w : board) :
  reduce_loop fuel v = Val w -> stalls_at v w.
Proof.
  revert v. induction fuel as [ | fuel IH]; simpl; intros v H.
  - discriminate.
  - bind_inv H. destruct (solved_count v =? solved_count a)%nat eqn:C.
    + injection H as <-. apply Nat.eqb_eq in C. apply stall_now; assumption.
    + apply Nat.eqb_neq in C. eapply stall_later; eauto.
Qed.

Lemma stalls_at_shrinks (v w : board) : stalls_at v w -> shrinks w v.
Proof.
  induction 1 as [v v' P C | v v' w P C S IH].
  - apply propagate_shrinks. assumption.
  - eapply shrinks_trans; [exact IH | apply propagate_shrinks; assumption].
Qed.

(** The board the loop leaves with comes out of a pass that kept the count. *)
Lemma stalls_at_last (v w : board) :
  stalls_at v w ->
  exists u, shrinks u v /\ propagate u = Val w
            /\ solved_count u = solved_count w.
Proof.
  induction 1 as [v v' P C | v v' w P C S [u [Hu X]]].
  - exists v. split; [apply shrinks_refl | auto].
  - exists u. split; [ | assumption].
    eapply shrinks_trans; [exact Hu | apply propagate_shrinks; assumption].
Qed.

(** The loop ends: every pass that changes the count removes a candidate. *)
Lemma reduce_loop_total (fuel : nat) (v : board) :
  keys v = boxes -> total_len v < fuel ->
  exists w, reduce_loop fuel v = Val w.
Proof.
  revert v. induction fuel as [ | fuel IH]; intros v K T; [lia | ].
  cbn [reduce_loop].
  destruct (propagate_total v K) as [_ [_ [v' [_ [_ [_ P]]]]]].
  rewrite P. cbn [bind].
  destruct (solved_count v =? solved_count v')%nat eqn:C; [eauto | ].
  apply Nat.eqb_neq in C.
  pose proof (propagate_shrinks _ _ P) as S.
  apply IH.
  - rewrite (shrinks_keys _ _ S). assumption.
  - pose proof (shrinks_total_len _ _ S) as L.
    destruct (Nat.eq_dec (total_len v') (total_len v)) as [E | N]; [ | lia].
    apply (shrinks_same_total _ _ S) in E. subst v'. congruence.
Qed.

Lemma visits_then_stalls (v u w : board) :
  visits v u -> stalls_at v w -> shrinks w u.
Proof.
  intros V. revert w.
  induction V as [v | v e E | v e o E O | v v' P | v v' u P C V IH];
    intros w S.
  - apply stalls_at_shrinks. assumption.
  - assert (X : exists v', propagate v = Val v' /\ shrinks w v').
    { inversion S; subst; eexists; split; eauto using shrinks_refl.
      apply stalls_at_shrinks. assumption. }
    destruct X as [v' [P Sw]]. apply propagate_parts in P.
    destruct P as [e' [o [E' [O T]]]]. rewrite E in E'. injection E' as <-.
    eapply shrinks_trans; [exact Sw | ].
    eapply shrinks_trans;
      [eapply naked_twins_shrinks | eapply only_choice_shrinks]; eassumption.
  - assert (X : exists v', propagate v = Val v' /\ shrinks w v').
    { inversion S; subst; eexists; split; eauto using shrinks_refl.
      apply stalls_at_shrinks. assumption. }
    destruct X as [v' [P Sw]]. apply propagate_parts in P.
    destruct P as [e' [o' [E' [O' T]]]]. rewrite E in E'. injection E' as <-.
    rewrite O in O'. injection O' as <-.
    eapply shrinks_trans; [exact Sw | ].
    eapply naked_twins_shrinks; eassumption.
  - inversion S as [? ? P' C' | ? v'' ? P' C' S']; subst;
      rewrite P in P'; injection P' as <-.
    + apply shrinks_refl.
    + apply stalls_at_shrinks. assumption.
  - inversion S as [? ? P' C' | ? v'' ? P' C' S']; subst;
      rewrite P in P'; injection P' as <-.
    + contradiction.
    + apply IH. assumption.
Qed.

(** * search *)

Lemma insert_by_length_In (x y : string * nat) (l : list (string * nat)) :
  In y (insert_by_length x l) <-> y = x \/ In y l.
Proof.
  induction l as [ | z l IH]; simpl.
  - intuition.
  - destruct (snd x <=? snd z)%nat; simpl; rewrite ?IH; intuition.
Qed.

Lemma sorted_by_length_In (y : string * nat) (l : list (string * nat)) :
  In y (sorted_by_length l) <-> In y l.
Proof.
  unfold sorted_by_length. induction l as [ | x l IH]; simpl.
  - tauto.
  - rewrite insert_by_length_In, IH. intuition.
Qed.

Lemma fold_min_In (l : list (string * nat)) (x : string * nat) :
  In (fold_left (fun m y => if tuple_ltb y m then y else m) l x) (x :: l).
Proof.
  revert x. induction l as [ | y l IH]; intros x; simpl.
  - auto.
  - destruct (IH (if tuple_ltb y x then y else x)) as [E | I].
    + rewrite <- E. destruct (tuple_ltb y x); auto.
    + auto.
Qed.

Lemma py_min_In (l : list (string * nat)) (m : string * nat) :
  py_min l = Val m -> In m l.
Proof.
  destruct l as [ | x l]; simpl; [discriminate | ].
  intros [= <-]. apply fold_min_In.
Qed.

Lemma boxes_lengths_In (v : board) (k : string) (n : nat) :
  In (k, n) (boxes_lengths v) <->
  exists s, In (k, s) v /\ n = String.length s /\ 1 < String.length s.
Proof.
  unfold boxes_lengths. rewrite in_map_iff. split.
  - intros [[k' s] [E H]]. simpl in E. injection E as -> <-.
    apply filter_In in H. destruct H as [H L]. apply Nat.ltb_lt in L. eauto.
  - intros [s [H [-> L]]]. exists (k, s). split; [reflexivity | ].
    apply filter_In. split; [assumption | apply Nat.ltb_lt; assumption].
Qed.

Lemma chosen_box_spec (v : board) (box : string) :
  chosen_box v = Val box ->
  exists s, In (box, s) v /\ 1 < String.length s.
Proof.
  unfold chosen_box. intros H. bind_inv H. injection H as <-.
  apply py_min_In in E. apply (proj1 (sorted_by_length_In _ _)) in E.
  destruct a as [k n]. apply (proj1 (boxes_lengths_In _ _ _)) in E. destruct E as [s [I [_ L]]]. eauto.
Qed.

Lemma chosen_box_total (v : board) (k s : string) :
  In (k, s) v -> 1 < String.length s -> exists box, chosen_box v = Val box.
Proof.
  intros I L. unfold chosen_box.
  assert (H : In (k, String.length s) (sorted_by_length (boxes_lengths v))).
  { apply sorted_by_length_In, boxes_lengths_In. eauto. }
  destruct (sorted_by_length (boxes_lengths v)) as [ | x l]; [destruct H | ].
  simpl. eauto.
Qed.

Lemma all_single_total (v : board) (bs : list string) :
  incl bs (keys v) -> exists b, all_single v bs = Val b.
Proof.
  induction bs as [ | box bs IH]; simpl; intros I.
  - eauto.
  - destruct (In_keys_lookup v box) as [s E]; [apply I; simpl; auto | ].
    unfold getitem. rewrite E. simpl.
    destruct (String.length s =? 1)%nat; [ | eauto].
    apply IH. intros x Hx. apply I. simpl. auto.
Qed.

Lemma all_single_true (v : board) (bs : list string) :
  all_single v bs = Val true ->
  forall box, In box bs -> exists c, lookup v box = Some (String c EmptyString).
Proof.
  induction bs as [ | b bs IH]; simpl; intros H box I.
  - destruct I.
  - bind_inv H. apply getitem_Val in E.
    destruct (String.length a =? 1)%nat eqn:L; [ | discriminate].
    apply Nat.eqb_eq, length_one in L. destruct L as [c ->].
    destruct I as [<- | I]; eauto.
Qed.

Lemma all_single_false (v : board) (bs : list string) :
  all_single v bs = Val false ->
  exists box s, In box bs /\ lookup v box = Some s /\ String.length s <> 1.
Proof.
  induction bs as [ | b bs IH]; simpl; intros H.
  - discriminate.
  - bind_inv H. apply getitem_Val in E.
    destruct (String.length a =? 1)%nat eqn:L.
    + destruct (IH H) as [box [s [I X]]]. exists box, s. auto.
    + apply Nat.eqb_neq in L. exists b, a. auto.
Qed.

Lemma total_len_setitem (v : board) (k s x : string) :
  lookup v k = Some s ->
  total_len (setitem v k x) + String.length s = total_len v + String.length x.
Proof.
  unfold total_len. induction v as [ | [k' y] v IH]; simpl; [discriminate | ].
  destruct (String.eqb k' k); simpl.
  - intros [= ->]. lia.
  - intros H. specialize (IH H). lia.
Qed.

Lemma try_values_total (rec : board -> res pyval) (v : board) (box : string)
    (cs : list ascii) :
  (forall value, In value cs ->
     exists r, rec (setitem v box (String value EmptyString)) = Val r) ->
  exists r, try_values rec v box cs = Val r.
Proof.
  induction cs as [ | c cs IH]; simpl; intros H.
  - eauto.
  - destruct (H c) as [r E]; [auto | ]. rewrite E. simpl.
    destruct (truthy r); eauto.
Qed.

Lemma try_values_result (rec : board -> res pyval) (v : board) (box : string)
    (cs : list ascii) (r : pyval) :
  try_values rec v box cs = Val r ->
  r = PNone
  \/ exists value, In value cs
                   /\ rec (setitem v box (String value EmptyString)) = Val r
                   /\ truthy r = true.
Proof.
  induction cs as [ | c cs IH]; simpl; intros H.
  - injection H as <-. auto.
  - bind_inv H. destruct (truthy a) eqn:T.
    + injection H as <-. right. exists c. auto.
    + destruct (IH H) as [-> | [value [I X]]]; [auto | ].
      right. exists value. auto.
Qed.

Lemma reduce_puzzle_dict (fuel : nat) (v r : board) :
  reduce_puzzle fuel v = Val (PDict r) ->
  stalls_at v r /\ has_empty r = false.
Proof.
  unfold reduce_puzzle. intros H. bind_inv H.
  destruct (has_empty a) eqn:X; [discriminate | ]. injection H as <-.
  split; [eapply reduce_loop_stalls; eassumption | assumption].
Qed.

Lemma reduce_puzzle_total (fuel : nat) (v : board) :
  keys v = boxes -> total_len v < fuel ->
  exists w, stalls_at v w
            /\ reduce_puzzle fuel v
               = Val (if has_empty w then PFalse else PDict w).
Proof.
  intros K T. destruct (reduce_loop_total fuel v K T) as [w E].
  exists w. split; [eapply reduce_loop_stalls; eassumption | ].
  unfold reduce_puzzle. rewrite E. cbn [bind]. destruct (has_empty w); auto.
Qed.

(** The recursion ends: a branch fixes a box that had several candidates. *)
Lemma search_total (fuel : nat) (v : board) :
  keys v = boxes -> total_len v < fuel -> exists r, search fuel v = Val r.
Proof.
  revert v. induction fuel as [ | fuel IH]; intros v K T; [lia | ].
  cbn [search].
  destruct (reduce_puzzle_total (S fuel) v K T) as [w [S ->]]. cbn [bind].
  destruct (has_empty w) eqn:X; [eauto | ].
  pose proof (stalls_at_shrinks _ _ S) as Sh.
  assert (Kw : keys w = boxes) by (rewrite (shrinks_keys _ _ Sh); assumption).
  assert (Nw : NoDup (keys w)) by (rewrite Kw; apply boxes_NoDup).
  destruct (all_single_total w boxes) as [b A]; [rewrite Kw; apply incl_refl | ].
  rewrite A. cbn [bind]. destruct b; [eauto | ].
  destruct (all_single_false _ _ A) as [box0 [s0 [I0 [L0 N0]]]].
  assert (Z : 1 < String.length s0).
  { destruct s0 as [ | a0 [ | a1 s0]]; simpl in *; try lia.
    exfalso. apply lookup_In in L0.
    assert (Y : has_empty w = true) by (apply has_empty_In; eauto).
    congruence. }
  destruct (chosen_box_total w box0 s0 (lookup_In _ _ _ L0) Z) as [box C].
  rewrite C. cbn [bind].
  destruct (chosen_box_spec _ _ C) as [s [I L]].
  apply (In_lookup _ _ _ Nw) in I. unfold getitem. rewrite I. cbn [bind].
  apply try_values_total. intros value _. apply IH.
  - rewrite (keys_setitem _ _ _ _ I). assumption.
  - pose proof (total_len_setitem w box s (String value EmptyString) I) as E.
    pose proof (shrinks_total_len _ _ Sh). simpl in E. lia.
Qed.

(** * A board that search returns *)

Lemma all_solved_In (v : board) :
  all_solved v = true <->
  forall k s, In (k, s) v -> String.length s = 1.
Proof.
  unfold all_solved. rewrite forallb_forall. split.
  - intros H k s I. apply Nat.eqb_eq. apply (H (k, s)). assumption.
  - intros H [k s] I. apply Nat.eqb_eq. eapply H. eassumption.
Qed.

Lemma all_single_all_solved (v : board) :
  keys v = boxes -> all_single v boxes = Val true -> all_solved v = true.
Proof.
  intros K A. apply all_solved_In. intros k s I.
  assert (N : NoDup (keys v)) by (rewrite K; apply boxes_NoDup).
  pose proof (In_lookup _ _ _ N I) as L.
  destruct (all_single_true _ _ A k) as [c E].
  - rewrite <- K. eapply lookup_In_keys. eassumption.
  - rewrite L in E. injection E as ->. reflexivity.
Qed.

Lemma solved_count_le (v : board) : solved_count v <= length v.
Proof. unfold solved_count. apply filter_length_le. Qed.

Lemma solved_count_all (v : board) :
  all_solved v = true <-> solved_count v = length v.
Proof.
  unfold all_solved, solved_count.
  induction v as [ | [k s] v IH]; cbn [forallb filter snd].
  - simpl. tauto.
  - pose proof (solved_count_le v) as L. unfold solved_count in L.
    destruct (String.length s =? 1)%nat; cbn [andb length].
    + rewrite IH. split; intros H; lia.
    + split; [discriminate | lia].
Qed.

Lemma shrinks_length (v' v : board) : shrinks v' v -> length v' = length v.
Proof. intros H. eapply Forall2_length. eassumption. Qed.

Lemma shrinks_all_solved (w u : board) :
  shrinks w u -> all_solved w = true -> all_solved u = true -> w = u.
Proof.
  unfold all_solved.
  induction 1 as [ | [k' s'] [k s] w u [Hk Hs] H IH];
    cbn [forallb snd fst] in *; intros A B.
  - reflexivity.
  - apply andb_true_iff in A, B. destruct A as [A1 A2], B as [B1 B2].
    apply Nat.eqb_eq in A1, B1. subst k'.
    f_equal; [ | auto]. f_equal. apply subseq_same_length; [assumption | lia].
Qed.

(** A pass that starts from a board with 81 solved boxes and leaves a board
    without an empty box has changed nothing. *)
Lemma stalled_solved_fixpoint (u w : board) :
  propagate u = Val w -> solved_count u = solved_count w ->
  all_solved w = true -> u = w.
Proof.
  intros P C A. pose proof (propagate_shrinks _ _ P) as S.
  symmetry. apply shrinks_all_solved; try assumption.
  apply solved_count_all. apply solved_count_all in A.
  rewrite C, A. apply shrinks_length. assumption.
Qed.

Lemma propagate_fixpoint_eliminate (w : board) :
  propagate w = Val w -> eliminate w = Val w.
Proof.
  intros P. destruct (propagate_parts _ _ P) as [e [o [E [O T]]]].
  pose proof (eliminate_shrinks _ _ E) as S1.
  pose proof (only_choice_shrinks _ _ O) as S2.
  pose proof (naked_twins_shrinks _ _ T) as S3.
  assert (X : e = w).
  { apply shrinks_antisym; [assumption | ].
    eapply shrinks_trans; eassumption. }
  congruence.
Qed.

Lemma eliminate_peers_fixpoint (c : ascii) (ps : list string) (w : board) :
  eliminate_peers c ps w = Val w ->
  forall p s, In p ps -> lookup w p = Some s -> contains c s = false.
Proof.
  induction ps as [ | q ps IH]; simpl; intros H p s I L.
  - destruct I.
  - bind_inv H. apply getitem_Val in E.
    assert (X : assign_value w q (remove_char c a) = w).
    { apply shrinks_antisym.
      - eapply shrinks_setitem; eauto with sudoku.
      - eapply eliminate_peers_shrinks. eassumption. }
    rewrite X in H. destruct I as [<- | I]; [ | eauto].
    assert (Y : lookup (assign_value w q (remove_char c a)) q
                = Some (remove_char c a)) by apply lookup_setitem_same.
    rewrite X, E in Y. injection Y as Y. rewrite E in L. injection L as <-.
    apply remove_char_fixed. congruence.
Qed.

(** If [eliminate] leaves the board as it is, no solved box shares its
    digit with a peer. *)
Lemma eliminate_loop_fixpoint (ks : list string) (w : board) :
  eliminate_loop ks w = Val w ->
  forall k c ps p s,
    In k ks -> lookup w k = Some (String c EmptyString) ->
    lookup peers k = Some ps -> In p ps -> lookup w p = Some s ->
    contains c s = false.
Proof.
  induction ks as [ | k0 ks IH]; cbn [eliminate_loop];
    intros H k c ps p s I L P Ip Lp.
  - destruct I.
  - bind_inv H. apply getitem_Val in E.
    destruct a as [ | c0 [ | ? ?]];
      try (destruct I as [<- | I]; [congruence | eauto]).
    bind_inv H. bind_inv H. apply getitem_Val in E0.
    assert (X : a0 = w).
    { apply shrinks_antisym.
      - eapply eliminate_peers_shrinks. eassumption.
      - eapply eliminate_loop_shrinks. eassumption. }
    subst a0. destruct I as [<- | I]; [ | eauto].
    rewrite E in L. injection L as <-. rewrite E0 in P. injection P as <-.
    eapply eliminate_peers_fixpoint; eassumption.
Qed.

Lemma candidates_ok_In (v : board) :
  candidates_ok v = true <->
  forall k s c, In (k, s) v -> contains c s = true ->
                contains c "123456789" = true.
Proof.
  unfold candidates_ok. rewrite forallb_forall. split.
  - intros H k s c I C. specialize (H _ I). cbn [snd] in H.
    rewrite forallb_forall in H. apply H. apply contains_In. assumption.
  - intros H [k s] I. cbn [snd]. apply forallb_forall. intros c C.
    eapply H; [eassumption | ]. apply contains_In. assumption.
Qed.

Lemma candidates_ok_shrinks (v' v : board) :
  shrinks v' v -> candidates_ok v = true -> candidates_ok v' = true.
Proof.
  unfold candidates_ok.
  induction 1 as [ | [k' s'] [k s] v' v [Hk Hs] H IH];
    cbn [forallb snd] in *; intros A; [reflexivity | ].
  apply andb_true_iff in A. destruct A as [A1 A2].
  apply andb_true_iff. split; [ | auto].
  rewrite forallb_forall in *. intros c C. apply A1.
  apply contains_In. eapply subseq_contains; [eassumption | ].
  apply contains_In. assumption.
Qed.

Lemma In_setitem (v : board) (k x k' s : string) :
  In (k', s) (setitem v k x) -> In (k', s) v \/ (k' = k /\ s = x).
Proof.
  induction v as [ | [k0 y] v IH]; simpl.
  - intros [[= <- <-] | []]. auto.
  - destruct (String.eqb k0 k) eqn:E; simpl.
    + apply String.eqb_eq in E. subst k0.
      intros [[= <- <-] | I]; auto.
    + intros [? | I]; [auto | ]. destruct (IH I); auto.
Qed.

Lemma candidates_ok_branch (v : board) (box s : string) (value : ascii) :
  candidates_ok v = true -> lookup v box = Some s -> In value (chars s) ->
  candidates_ok (setitem v box (String value EmptyString)) = true.
Proof.
  intros A L I. apply candidates_ok_In. intros k t c It C.
  rewrite candidates_ok_In in A.
  destruct (In_setitem _ _ _ _ _ It) as [J | [-> ->]].
  - eapply A; eassumption.
  - simpl in C. destruct (Ascii.eqb value c) eqn:Ev; [ | discriminate].
    apply Ascii.eqb_eq in Ev. subst c.
    eapply A; [eapply lookup_In; eassumption | ]. apply contains_In, I.
Qed.

Lemma assigned_distinct (w : board) (l : list string) :
  (forall box, In box l ->
     exists c, lookup w box = Some (String c EmptyString)) ->
  NoDup l ->
  (forall a b, In a l -> In b l -> a <> b ->
     exists ps, lookup peers a = Some ps /\ In b ps) ->
  (forall k c ps p s, lookup w k = Some (String c EmptyString) ->
     lookup peers k = Some ps -> In p ps -> lookup w p = Some s ->
     contains c s = false) ->
  NoDup (assigned w l) /\ length (assigned w l) = length l
  /\ forall c, In c (assigned w l) ->
       exists b, In b l /\ lookup w b = Some (String c EmptyString).
Proof.
  intros S N P F. induction l as [ | a l IH]; cbn [assigned flat_map].
  - repeat split; [constructor | intros c []].
  - inversion N as [ | ? ? Ha N']; subst.
    destruct IH as [D [L C]]; try assumption.
    { intros box I. apply S. simpl. auto. }
    { intros x y Ix Iy. apply P; simpl; auto. }
    destruct (S a) as [c E]; [simpl; auto | ]. rewrite E. simpl.
    fold (assigned w l). repeat split.
    + constructor; [ | assumption]. intros I.
      destruct (C c I) as [b [Ib Lb]].
      destruct (P a b) as [ps [Ep Ip]]; [simpl; auto .. | congruence | ].
      pose proof (F _ _ _ _ _ E Ep Ip Lb) as X. simpl in X.
      rewrite Ascii.eqb_refl in X. discriminate.
    + congruence.
    + intros d [<- | I]; [eauto | ].
      destruct (C d I) as [b [Ib Lb]]. eauto.
Qed.

(** A board with one digit per box that [eliminate] leaves alone is solved. *)
Lemma fixpoint_Solved (w : board) :
  keys w = boxes -> all_solved w = true -> candidates_ok w = true ->
  eliminate w = Val w -> Solved w.
Proof.
  intros K A C E.
  assert (N : NoDup (keys w)) by (rewrite K; apply boxes_NoDup).
  assert (S : forall box, In box boxes ->
                exists c, lookup w box = Some (String c EmptyString)).
  { intros box I. rewrite <- K in I. destruct (In_keys_lookup _ _ I) as [s L].
    rewrite all_solved_In in A. pose proof (A _ _ (lookup_In _ _ _ L)) as X.
    apply length_one in X. destruct X as [c ->]. eauto. }
  split; [exact S | ]. intros unit U. rewrite <- unitlist_explicit in U.
  split; [intros box Ib; apply S; eapply unit_in_boxes; eassumption | ].
  destruct (unit_shape _ U) as [Nu Lu].
  destruct (assigned_distinct w unit) as [D [L I]].
  - intros box Ib. apply S. eapply unit_in_boxes; eassumption.
  - assumption.
  - intros a b. apply unit_peers. assumption.
  - intros k c ps p s Lk Lp Ip Ls.
    eapply (eliminate_loop_fixpoint _ _ E k); try eassumption.
    eapply lookup_In_keys. eassumption.
  - apply NoDup_Permutation_bis; try assumption.
    + simpl. lia.
    + intros c Ic. destruct (I c Ic) as [b [Ib Lb]].
      apply contains_In. rewrite candidates_ok_In in C.
      eapply C; [eapply lookup_In; eassumption | ].
      simpl. rewrite Ascii.eqb_refl. reflexivity.
Qed.

Lemma reduced_solved_fixpoint (fuel : nat) (v r : board) :
  keys v = boxes -> reduce_puzzle fuel v = Val (PDict r) ->
  all_single r boxes = Val true ->
  shrinks r v /\ all_solved r = true /\ eliminate r = Val r.
Proof.
  intros K R A. apply reduce_puzzle_dict in R. destruct R as [S X].
  pose proof (stalls_at_shrinks _ _ S) as Sh.
  assert (Kr : keys r = boxes) by (rewrite (shrinks_keys _ _ Sh); assumption).
  pose proof (all_single_all_solved _ Kr A) as As.
  destruct (stalls_at_last _ _ S) as [u [_ [P C]]].
  pose proof (stalled_solved_fixpoint _ _ P C As) as ->.
  auto using propagate_fixpoint_eliminate.
Qed.

Lemma search_returns (fuel : nat) (v r : board) :
  keys v = boxes -> candidates_ok v = true ->
  search fuel v = Val (PDict r) ->
  keys r = boxes /\ all_solved r = true /\ candidates_ok r = true
  /\ eliminate r = Val r.
Proof.
  revert v. induction fuel as [ | fuel IH]; intros v K C H; cbn [search] in H.
  - discriminate.
  - bind_inv H. destruct a as [w | | ]; try discriminate.
    bind_inv H. destruct a.
    + injection H as <-.
      destruct (reduced_solved_fixpoint _ _ _ K E E0) as [Sh [A F]].
      rewrite (shrinks_keys _ _ Sh).
      eauto using candidates_ok_shrinks.
    + bind_inv H. bind_inv H. apply getitem_Val in E2.
      apply try_values_result in H.
      destruct H as [H | [value [I [H _]]]]; [discriminate | ].
      apply reduce_puzzle_dict in E. destruct E as [S _].
      pose proof (stalls_at_shrinks _ _ S) as Sh.
      apply IH in H; [assumption | | ].
      * rewrite (keys_setitem _ _ _ _ E2), (shrinks_keys _ _ Sh). assumption.
      * eapply candidates_ok_branch; try eassumption.
        eapply candidates_ok_shrinks; eassumption.
Qed.

(** * The claims *)

(** C1.  A board that [search] returns is solved: each of the 81 boxes has
    exactly one candidate, and in each of the 29 units (rows, columns,
    squares, both diagonals) the nine digits are a permutation of 1-9.  The
    input is a board over the 81 boxes whose candidates are digits 1-9. *)
Theorem search_result_is_solved (fuel : nat) (values r : board) :
  keys values = boxes -> candidates_ok values = true ->
  search fuel values = Val (PDict r) ->
  Solved r.
Proof.
  intros K C H.
  destruct (search_returns _ _ _ K C H) as [Kr [A [Cr E]]].
  apply fixpoint_Solved; assumption.
Qed.

Lemma search_result_is_solved_witness :
  Solved (grid2values diag_sudoku_solution).
Proof.
  apply (search_result_is_solved 730 (grid2values diag_sudoku_grid));
    vm_compute; reflexivity.
Defined.

(** C6.  On a board over the 81 boxes [search] terminates: with more fuel
    than the board has candidates (at most 729 on a well-formed board) the
    [while] loop of [reduce_puzzle] reaches a stalled pass and the recursion
    of [search] returns a value, without raising. *)
Theorem search_terminates (fuel : nat) (values : board) :
  keys values = boxes -> total_len values < fuel ->
  (exists reduced, reduce_puzzle fuel values = Val reduced)
  /\ (exists result, search fuel values = Val result).
Proof.
  intros K T. split.
  - destruct (reduce_puzzle_total fuel values K T) as [w [_ E]]. eauto.
  - apply search_total; assumption.
Qed.

Lemma search_terminates_witness :
  (exists reduced,
      reduce_puzzle 730 (grid2values diag_sudoku_grid) = Val reduced)
  /\ (exists result, search 730 (grid2values diag_sudoku_grid) = Val result).
Proof.
  apply (search_terminates 730 (grid2values diag_sudoku_grid)).
  - reflexivity.
  - vm_compute. lia.
Defined.

(** C10.  Each propagation step only shrinks candidate sets: on a board over
    the 81 boxes, [eliminate], [only_choice] and [naked_twins] return a board
    with the same boxes in which every box holds an order-preserving
    subsequence, hence a subset, of the candidates it held before. *)
Theorem propagation_only_shrinks (values : board) :
  keys values = boxes ->
  forall op, In op [eliminate; only_choice; naked_twins] ->
  exists values',
    op values = Val values'
    /\ keys values' = keys values
    /\ forall box s, lookup values box = Some s ->
         exists s', lookup values' box = Some s'
                    /\ subseq s' s
                    /\ forall c, contains c s' = true -> contains c s = true.
Proof.
  intros K op I.
  assert (X : exists values', op values = Val values' /\ shrinks values' values).
  { simpl in I. destruct I as [<- | [<- | [<- | []]]].
    - destruct (eliminate_total _ K) as [v' E].
      eauto using eliminate_shrinks.
    - destruct (only_choice_total _ K) as [v' E].
      eauto using only_choice_shrinks.
    - destruct (naked_twins_total _ K) as [_ [_ [v' [_ [_ [_ E]]]]]].
      eauto using naked_twins_shrinks. }
  destruct X as [v' [E S]]. exists v'. split; [assumption | ].
  split; [apply shrinks_keys; assumption | ].
  intros box s L. destruct (shrinks_lookup _ _ _ _ S L) as [s' [L' Sub]].
  exists s'. repeat split; try assumption.
  intros c. apply subseq_contains. assumption.
Qed.

Lemma propagation_only_shrinks_witness :
  exists values',
    eliminate (grid2values diag_sudoku_grid) = Val values'
    /\ keys values' = keys (grid2values diag_sudoku_grid)
    /\ forall box s, lookup (grid2values diag_sudoku_grid) box = Some s ->
         exists s', lookup values' box = Some s'
                    /\ subseq s' s
                    /\ forall c, contains c s' = true -> contains c s = true.
Proof.
  apply (propagation_only_shrinks (grid2values diag_sudoku_grid)).
  - reflexivity.
  - simpl. left. reflexivity.
Defined.

(** C7 (as amended).  [naked_twins] takes nothing from the two boxes of a
    twin pair on account of that pair: every removal it records comes from
    a recorded pair (t1, t2) and names a box in the intersection of
    [peers[t1]] and [peers[t2]], which holds neither t1 nor t2; a box that
    is in no such intersection keeps its candidates. *)
Theorem naked_twins_spares_the_pair (values : board) :
  keys values = boxes ->
  exists twins to_replace values',
    find_twins values (doubles values) [] = Val twins
    /\ values_to_replace values twins = Val to_replace
    /\ naked_twins values = Val values'
    /\ (forall box d, In (box, d) to_replace ->
          exists t1 t2, In (t1, t2) twins /\ common_peer t1 t2 box
                        /\ box <> t1 /\ box <> t2 /\ twin_digit values t1 d)
    /\ (forall t1 t2, In (t1, t2) twins ->
          ~ common_peer t1 t2 t1 /\ ~ common_peer t1 t2 t2)
    /\ (forall box,
          (forall t1 t2, In (t1, t2) twins -> ~ common_peer t1 t2 box) ->
          lookup values' box = lookup values box).
Proof.
  intros K.
  destruct (naked_twins_total _ K) as [twins [rs [v' [F [R [A T]]]]]].
  exists twins, rs, v'. repeat split; try assumption.
  - intros box d I. apply (values_to_replace_spec _ _ _ R) in I.
    destruct I as [t1 [t2 [I [C [D _]]]]]. exists t1, t2.
    destruct (common_peer_not_self t1 t2) as [N1 N2].
    repeat split; try assumption; intros ->; contradiction.
  - apply common_peer_not_self.
  - apply common_peer_not_self.
  - intros box N.
    pose proof (apply_removals_shrinks _ _ _ A) as S.
    destruct (lookup values box) as [s | ] eqn:L.
    + rewrite (apply_removals_lookup _ _ _ _ _ A L). f_equal.
      apply strip_untouched. intros d I.
      apply (values_to_replace_spec _ _ _ R) in I.
      destruct I as [t1 [t2 [I [C _]]]]. apply (N t1 t2); assumption.
    + destruct (lookup v' box) as [s' | ] eqn:L'; [ | reflexivity].
      destruct (shrinks_lookup_back _ _ _ _ S L') as [s [X _]]. congruence.
Qed.

(** * Boards with one candidate in every box *)

Lemma no_conflict_spec (v : board) (k p : string) (ps : list string) :
  no_conflict v = true -> lookup peers k = Some ps -> In p ps ->
  exists s t, lookup v k = Some s /\ lookup v p = Some t /\ s <> t.
Proof.
  unfold no_conflict. intros H L I. rewrite forallb_forall in H.
  specialize (H _ (lookup_In _ _ _ L)). cbn [fst snd] in H.
  rewrite forallb_forall in H. specialize (H _ I).
  destruct (lookup v k) as [s | ]; [ | discriminate].
  destruct (lookup v p) as [t | ]; [ | discriminate].
  apply negb_true_iff, String.eqb_neq in H. eauto.
Qed.

Lemma eliminate_peers_id (c : ascii) (ps : list string) (w : board) :
  (forall p, In p ps -> exists s, lookup w p = Some s /\ contains c s = false) ->
  eliminate_peers c ps w = Val w.
Proof.
  induction ps as [ | p ps IH]; simpl; intros H.
  - reflexivity.
  - destruct (H p) as [s [L C]]; [auto | ].
    unfold getitem. rewrite L. simpl.
    rewrite (remove_char_absent _ _ C). unfold assign_value.
    rewrite (setitem_same _ _ _ L). auto.
Qed.

Lemma eliminate_loop_id (ks : list string) (w : board) :
  incl ks boxes -> keys w = boxes -> all_solved w = true ->
  no_conflict w = true -> eliminate_loop ks w = Val w.
Proof.
  intros I K A N. induction ks as [ | k ks IH]; cbn [eliminate_loop].
  - reflexivity.
  - assert (Ik : In k boxes) by (apply I; simpl; auto).
    assert (I' : incl ks boxes) by (intros x Hx; apply I; simpl; auto).
    destruct (peers_total k Ik) as [ps P].
    rewrite <- K in Ik. destruct (In_keys_lookup _ _ Ik) as [s L].
    unfold getitem. rewrite L, P. cbn [bind].
    rewrite all_solved_In in A.
    pose proof (A _ _ (lookup_In _ _ _ L)) as Len.
    apply length_one in Len. destruct Len as [c ->].
    rewrite eliminate_peers_id; [cbn [bind]; auto | ].
    intros p Ip. destruct (no_conflict_spec _ _ _ _ N P Ip) as [s [t [Ls [Lt D]]]].
    rewrite L in Ls. injection Ls as <-. exists t. split; [assumption | ].
    pose proof (A _ _ (lookup_In _ _ _ Lt)) as Len.
    apply length_one in Len. destruct Len as [d ->]. simpl.
    destruct (Ascii.eqb d c) eqn:E; [ | reflexivity].
    apply Ascii.eqb_eq in E. congruence.
Qed.

Lemma only_choice_unit_id (unit : list string) (ds : list ascii) (w : board) :
  incl unit (keys w) -> all_solved w = true ->
  only_choice_unit unit ds w = Val w.
Proof.
  intros I A. induction ds as [ | c ds IH]; simpl.
  - reflexivity.
  - destruct (boxes_with_value_total w c unit I) as [found E].
    rewrite E. simpl. destruct found as [ | box [ | ? ?]]; auto.
    destruct (proj1 (boxes_with_value_In _ _ _ _ E box)) as [_ [s [L C]]];
      [simpl; auto | ].
    rewrite all_solved_In in A.
    pose proof (A _ _ (lookup_In _ _ _ L)) as Len.
    apply length_one in Len. destruct Len as [d ->]. simpl in C.
    destruct (Ascii.eqb d c) eqn:Ed; [ | discriminate].
    apply Ascii.eqb_eq in Ed. subst d. unfold assign_value.
    rewrite (setitem_same _ _ _ L). apply IH.
Qed.

Lemma only_choice_id (w : board) :
  keys w = boxes -> all_solved w = true -> only_choice w = Val w.
Proof.
  intros K A. unfold only_choice.
  assert (I : forall u, In u unitlist -> incl u (keys w)).
  { intros u U. rewrite K. apply unit_in_boxes. assumption. }
  induction unitlist as [ | u us IH]; cbn [only_choice_loop].
  - reflexivity.
  - rewrite only_choice_unit_id; [ | apply I; simpl; auto | assumption].
    cbn [bind]. apply IH. intros; apply I; simpl; auto.
Qed.

Lemma naked_twins_id (w : board) :
  all_solved w = true -> naked_twins w = Val w.
Proof.
  intros A. unfold naked_twins.
  assert (D : doubles w = []).
  { unfold doubles. rewrite all_solved_In in A.
    induction w as [ | [k s] w IH]; [reflexivity | ]. cbn [filter snd].
    rewrite (A k s) by (simpl; auto). simpl.
    apply IH. intros k' s' I. apply (A k' s'). simpl. auto. }
  rewrite D. reflexivity.
Qed.

(** C9 (as amended).  On a solved board -- one candidate in every box and no
    box holding the digit of one of its peers -- [eliminate], [only_choice]
    and [naked_twins] each return the board they were given. *)
Theorem propagation_keeps_a_solved_board (values : board) :
  keys values = boxes -> all_solved values = true ->
  no_conflict values = true ->
  eliminate values = Val values
  /\ only_choice values = Val values
  /\ naked_twins values = Val values.
Proof.
  intros K A N. split; [ | split].
  - apply eliminate_loop_id; try assumption. rewrite K. apply incl_refl.
  - apply only_choice_id; assumption.
  - apply naked_twins_id; assumption.
Qed.

Lemma propagation_keeps_a_solved_board_witness :
  eliminate (grid2values diag_sudoku_solution)
  = Val (grid2values diag_sudoku_solution)
  /\ only_choice (grid2values diag_sudoku_solution)
     = Val (grid2values diag_sudoku_solution)
  /\ naked_twins (grid2values diag_sudoku_solution)
     = Val (grid2values diag_sudoku_solution).
Proof.
  apply (propagation_keeps_a_solved_board (grid2values diag_sudoku_solution));
    vm_compute; reflexivity.
Defined.

(** C9 (as stated) fails: with one candidate in every box but the same digit
    in the peers A1 and A2, [eliminate] empties A2. *)
Lemma eliminate_changes_a_filled_board :
  keys (grid2values repeated_digit_grid) = boxes
  /\ all_solved (grid2values repeated_digit_grid) = true
  /\ lookup (grid2values repeated_digit_grid) "A2" = Some "2"
  /\ exists values',
       eliminate (grid2values repeated_digit_grid) = Val values'
       /\ lookup values' "A2" = Some ""
       /\ values' <> grid2values repeated_digit_grid.
Proof.
  split; [reflexivity | ]. split; [reflexivity | ]. split; [reflexivity | ].
  eexists. split; [vm_compute; reflexivity | ].
  split; [reflexivity | ]. vm_compute. discriminate.
Qed.

Lemma naked_twins_spares_the_pair_witness :
  exists twins to_replace values',
    find_twins two_pairs_board (doubles two_pairs_board) [] = Val twins
    /\ values_to_replace two_pairs_board twins = Val to_replace
    /\ naked_twins two_pairs_board = Val values'
    /\ (forall box d, In (box, d) to_replace ->
          exists t1 t2, In (t1, t2) twins /\ common_peer t1 t2 box
                        /\ box <> t1 /\ box <> t2
                        /\ twin_digit two_pairs_board t1 d)
    /\ (forall t1 t2, In (t1, t2) twins ->
          ~ common_peer t1 t2 t1 /\ ~ common_peer t1 t2 t2)
    /\ (forall box,
          (forall t1 t2, In (t1, t2) twins -> ~ common_peer t1 t2 box) ->
          lookup values' box = lookup two_pairs_board box).
Proof.
  apply (naked_twins_spares_the_pair two_pairs_board). reflexivity.
Defined.

(** C7 (as stated) fails: a box of one twin pair can be a shared peer of
    another pair, and then loses a candidate on that pair's account.  A1, a
    twin of A2, is a peer of both A9 and I9 and loses their 3; A9, a twin
    of I9, is a peer of both A1 and A2 and loses it too. *)
Lemma a_twin_can_be_a_shared_peer :
  find_twins two_pairs_board (doubles two_pairs_board) []
  = Val [("A1", "A2"); ("A9", "I9")]
  /\ exists values',
       naked_twins two_pairs_board = Val values'
       /\ lookup values' "A1" = Some "2" /\ lookup values' "A2" = Some "23"
       /\ lookup values' "A9" = Some "5" /\ lookup values' "I9" = Some "35".
Proof.
  split; [vm_compute; reflexivity | ].
  eexists. split; [vm_compute; reflexivity | ]. repeat split.
Qed.

(** C5 (as amended).  Across a pass of [reduce_puzzle] that leaves no box
    without candidates, the count of solved boxes does not decrease. *)
Theorem solved_count_monotone (values : board) :
  keys values = boxes ->
  exists values',
    propagate values = Val values'
    /\ (has_empty values' = false ->
        solved_count values <= solved_count values').
Proof.
  intros K. destruct (propagate_total _ K) as [_ [_ [v' [_ [_ [_ P]]]]]].
  exists v'. split; [assumption | ].
  apply solved_count_shrinks, propagate_shrinks. assumption.
Qed.

Lemma solved_count_monotone_witness :
  exists values',
    propagate (grid2values diag_sudoku_grid) = Val values'
    /\ (has_empty values' = false ->
        solved_count (grid2values diag_sudoku_grid) <= solved_count values').
Proof.
  apply (solved_count_monotone (grid2values diag_sudoku_grid)). reflexivity.
Defined.

(** C5 (as stated) fails: with a 5 in both A1 and A2 the first pass empties
    A2, and the count of solved boxes goes from 2 to 1. *)
Lemma solved_count_can_decrease :
  solved_count (grid2values twice_five_grid) = 2
  /\ exists values',
       propagate (grid2values twice_five_grid) = Val values'
       /\ lookup values' "A2" = Some ""
       /\ solved_count values' = 1.
Proof.
  split; [reflexivity | ].
  eexists. split; [vm_compute; reflexivity | ]. split; reflexivity.
Qed.

(** C4 (as amended).  [reduce_puzzle] repeats full passes until one keeps the
    count of solved boxes; only then does it look for a box without
    candidates, returning [False] if there is one and the board otherwise.
    A box that is empty at any point of the propagation is still empty
    then, so the contradiction is always reported -- at the stall. *)
Theorem reduce_puzzle_reports_at_the_stall (fuel : nat) (values : board) :
  keys values = boxes -> total_len values < fuel ->
  exists w,
    stalls_at values w
    /\ reduce_puzzle fuel values
       = Val (if has_empty w then PFalse else PDict w)
    /\ forall u, visits values u -> has_empty u = true ->
                 reduce_puzzle fuel values = Val PFalse.
Proof.
  intros K T. destruct (reduce_puzzle_total fuel values K T) as [w [S E]].
  exists w. split; [assumption | ]. split; [assumption | ].
  intros u V X. rewrite E.
  rewrite (has_empty_shrinks _ _ (visits_then_stalls _ _ _ V S) X).
  reflexivity.
Qed.

Lemma reduce_puzzle_reports_at_the_stall_witness :
  exists w,
    stalls_at (grid2values twice_five_grid) w
    /\ reduce_puzzle 730 (grid2values twice_five_grid)
       = Val (if has_empty w then PFalse else PDict w)
    /\ forall u, visits (grid2values twice_five_grid) u ->
                 has_empty u = true ->
                 reduce_puzzle 730 (grid2values twice_five_grid) = Val PFalse.
Proof.
  apply (reduce_puzzle_reports_at_the_stall 730 (grid2values twice_five_grid)).
  - reflexivity.
  - vm_compute. lia.
Defined.

(** C4 (as stated) fails on "immediately": with a 5 in both A1 and A2,
    [eliminate] empties A2 in the first pass, the pass is completed, and as
    the count of solved boxes has changed the loop goes on -- one trip
    through the body does not end it; [False] comes after the second. *)
Lemma contradiction_is_not_reported_at_once :
  exists e values',
    eliminate (grid2values twice_five_grid) = Val e
    /\ has_empty e = true
    /\ propagate (grid2values twice_five_grid) = Val values'
    /\ has_empty values' = true
    /\ solved_count (grid2values twice_five_grid) <> solved_count values'
    /\ reduce_puzzle 1 (grid2values twice_five_grid) = OutOfFuel
    /\ reduce_puzzle 2 (grid2values twice_five_grid) = Val PFalse.
Proof.
  eexists. eexists.
  split; [vm_compute; reflexivity | ]. split; [reflexivity | ].
  split; [vm_compute; reflexivity | ]. split; [reflexivity | ].
  split; [vm_compute; discriminate | ].
  split; vm_compute; reflexivity.
Qed.

(** C2.  The box [search] branches on is the first in the order of the box
    names among those with more than one candidate, whatever their lengths:
    with a single clue at D5, the reduced board has nine candidates in A1
    and eight in D1, and A1 is chosen. *)
Theorem chosen_box_is_not_the_shortest :
  exists reduced,
    reduce_puzzle 730 (grid2values one_clue_grid) = Val (PDict reduced)
    /\ all_single reduced boxes = Val false
    /\ chosen_box reduced = Val "A1"
    /\ lookup reduced "A1" = Some "123456789"
    /\ lookup reduced "D1" = Some "23456789".
Proof.
  eexists. split; [vm_compute; reflexivity | ]. repeat split.
Qed.

(** C3.  When every branch of the top-level box fails, [search] falls off
    the end of its loop and [solve] returns [None], not [False]: boxes
    A1-A4 can only hold 6, 7 and 8, which propagation does not notice. *)
Theorem solve_returns_None :
  reduce_puzzle 730 (grid2values pigeonhole_grid) <> Val PFalse
  /\ solve 730 pigeonhole_grid = Val PNone.
Proof.
  split; [vm_compute; discriminate | vm_compute; reflexivity].
Qed.

(** * solve *)

Lemma chars_length (s : string) : length (chars s) = String.length s.
Proof. induction s; simpl; congruence. Qed.

Lemma keys_grid2values (cs : list ascii) (bs : list string) :
  length cs = length bs ->
  map fst (map (fun '(val, key) =>
                  if Ascii.eqb val "."%char then (key, "123456789")
                  else (key, String val EmptyString))
               (combine cs bs)) = bs.
Proof.
  revert bs. induction cs as [ | c cs IH]; intros [ | b bs] L;
    simpl in *; try discriminate; [reflexivity | ].
  destruct (Ascii.eqb c "."); simpl; f_equal; apply IH; lia.
Qed.

(** A grid of 81 characters, each a digit 1-9 or a dot, is parsed to a board
    over the 81 boxes with candidates 1-9. *)
Lemma grid2values_well_formed (grid : string) :
  String.length grid = 81 ->
  forallb (fun c => contains c ".123456789") (chars grid) = true ->
  keys (grid2values grid) = boxes /\ candidates_ok (grid2values grid) = true.
Proof.
  intros L A. split.
  - apply keys_grid2values. rewrite chars_length, L. reflexivity.
  - unfold grid2values, candidates_ok. rewrite forallb_forall in *.
    intros [k s] I. apply in_map_iff in I. destruct I as [[c b] [E I]].
    apply in_combine_l in I. specialize (A _ I). cbn [snd].
    destruct (Ascii.eqb c ".") eqn:D; injection E as <- <-.
    + reflexivity.
    + change (contains c ".123456789")
        with (if Ascii.eqb "." c then true else contains c "123456789") in A.
      rewrite Ascii.eqb_sym, D in A.
      unfold chars. cbn [list_ascii_of_string forallb]. rewrite A. reflexivity.
Qed.

(** What C1 says of [search] holds of [solve] on a well-formed grid. *)
Lemma solve_result_is_solved (fuel : nat) (grid : string) (r : board) :
  String.length grid = 81 ->
  forallb (fun c => contains c ".123456789") (chars grid) = true ->
  solve fuel grid = Val (PDict r) -> Solved r.
Proof.
  intros L A H. destruct (grid2values_well_formed _ L A) as [K C].
  destruct (search_returns _ _ _ K C H) as [Kr [As [Cr E]]].
  apply fixpoint_Solved; assumption.
Qed.

(** * Further properties of the code *)

(** ** The unit topology *)

Lemma lookup_tabulate {V : Type} (f : string -> V) (l : list string)
    (k : string) (x : V) :
  lookup (map (fun s => (s, f s)) l) k = Some x -> In k l /\ x = f k.
Proof.
  induction l as [ | a l IH]; simpl; [discriminate | ].
  destruct (String.eqb a k) eqn:E.
  - apply String.eqb_eq in E. subst a. intros [= <-]. auto.
  - intros H. destruct (IH H). auto.
Qed.

Lemma peers_tabulated : peers = map (fun s => (s, peers_of s)) boxes.
Proof. vm_compute. reflexivity. Qed.

Lemma units_tabulated : units = map (fun s => (s, units_of s)) boxes.
Proof. vm_compute. reflexivity. Qed.

(** X1.  [units[s]] lists the units that contain [s], and [peers[s]] the
    boxes other than [s] that share a unit with it; so being a peer is
    symmetric. *)
Theorem peers_share_a_unit (a : string) (us : list (list string))
    (ps : list string) :
  lookup units a = Some us -> lookup peers a = Some ps ->
  (forall u, In u us <-> In u unitlist /\ In a u)
  /\ (forall b, In b ps <->
                a <> b /\ exists u, In u unitlist /\ In a u /\ In b u)
  /\ (forall b, In b ps -> exists ps', lookup peers b = Some ps' /\ In a ps').
Proof.
  intros Hu Hp.
  rewrite units_tabulated in Hu. apply lookup_tabulate in Hu.
  rewrite peers_tabulated in Hp. apply lookup_tabulate in Hp.
  destruct Hu as [_ ->]. destruct Hp as [Ia ->].
  assert (C : forall x b, In b (peers_of x) <->
                x <> b /\ exists u, In u unitlist /\ In x u /\ In b u).
  { intros x b. unfold peers_of, units_of.
    rewrite filter_In, nodup_In, in_concat, negb_true_iff, String.eqb_neq.
    split.
    - intros [[u [Hu Hb]] N]. apply filter_In in Hu. destruct Hu as [Hu Hx].
      apply mem_In in Hx. split; [congruence | eauto].
    - intros [N [u [Hu [Hx Hb]]]]. split; [ | congruence].
      exists u. split; [ | assumption]. apply filter_In.
      split; [assumption | apply mem_In; assumption]. }
  split; [ | split].
  - intros u. unfold units_of. rewrite filter_In, mem_In. tauto.
  - apply C.
  - intros b Hb. pose proof (proj1 (C a b) Hb) as [N [u [Hu [Ha Ib]]]].
    destruct (peers_total b) as [ps' E].
    { eapply unit_in_boxes; eassumption. }
    exists ps'. split; [assumption | ].
    rewrite peers_tabulated in E. apply lookup_tabulate in E.
    destruct E as [_ ->]. apply C. split; [congruence | eauto].
Qed.

Lemma peers_share_a_unit_witness :
  (forall u, In u [nth 4 unitlist []; nth 13 unitlist []; nth 22 unitlist [];
                   nth 27 unitlist []; nth 28 unitlist []]
             <-> In u unitlist /\ In "E5" u)
  /\ (forall b, In b (peers_of "E5") <->
                "E5" <> b /\ exists u, In u unitlist /\ In "E5" u /\ In b u)
  /\ (forall b, In b (peers_of "E5") ->
                exists ps', lookup peers b = Some ps' /\ In "E5" ps').
Proof.
  apply (peers_share_a_unit "E5"); vm_compute; reflexivity.
Defined.

(** ** The box search branches on *)

Lemma ascii_compare_refl (a : ascii) : Ascii.compare a a = Eq.
Proof. unfold Ascii.compare. apply N.compare_refl. Qed.

Lemma string_compare_refl (s : string) : String.compare s s = Eq.
Proof.
  induction s as [ | a s IH]; simpl; [reflexivity | ].
  rewrite ascii_compare_refl. assumption.
Qed.

Lemma string_compare_lt_trans (a b c : string) :
  String.compare a b = Lt -> String.compare b c = Lt ->
  String.compare a c = Lt.
Proof.
  revert b c. induction a as [ | x a IH]; intros [ | y b] [ | z c]; simpl;
    try congruence.
  unfold Ascii.compare.
  destruct (N.compare_spec (N_of_ascii x) (N_of_ascii y)) as [E1 | L1 | G1];
    destruct (N.compare_spec (N_of_ascii y) (N_of_ascii z)) as [E2 | L2 | G2];
    try congruence; intros H1 H2.
  - rewrite E1, E2, N.compare_refl. eapply IH; eassumption.
  - rewrite E1. apply N.compare_lt_iff in L2. rewrite L2. reflexivity.
  - rewrite <- E2. apply N.compare_lt_iff in L1. rewrite L1. reflexivity.
  - assert (L : (N_of_ascii x < N_of_ascii z)%N) by lia.
    apply N.compare_lt_iff in L. rewrite L. reflexivity.
Qed.

Lemma tuple_ltb_trans (a b c : string * nat) :
  tuple_ltb a b = true -> tuple_ltb b c = true -> tuple_ltb a c = true.
Proof.
  unfold tuple_ltb.
  destruct (String.compare (fst a) (fst b)) eqn:E1; try discriminate;
    destruct (String.compare (fst b) (fst c)) eqn:E2; try discriminate;
    intros H1 H2.
  - apply String.compare_eq_iff in E1, E2. rewrite E1, E2.
    rewrite string_compare_refl. apply Nat.ltb_lt in H1, H2.
    apply Nat.ltb_lt. lia.
  - apply String.compare_eq_iff in E1. rewrite E1, E2. reflexivity.
  - apply String.compare_eq_iff in E2. rewrite <- E2, E1. reflexivity.
  - rewrite (string_compare_lt_trans _ _ _ E1 E2). reflexivity.
Qed.

Lemma tuple_ltb_irrefl (a : string * nat) : tuple_ltb a a = false.
Proof.
  unfold tuple_ltb. rewrite string_compare_refl. apply Nat.ltb_irrefl.
Qed.

Lemma fold_min_below (l : list (string * nat)) (m y : string * nat) :
  tuple_ltb y m = false ->
  tuple_ltb y (fold_left (fun m z => if tuple_ltb z m then z else m) l m)
  = false.
Proof.
  revert m. induction l as [ | z l IH]; intros m H; cbn [fold_left].
  - assumption.
  - apply IH. destruct (tuple_ltb z m) eqn:Z; [ | assumption].
    destruct (tuple_ltb y z) eqn:Y; [ | reflexivity].
    rewrite (tuple_ltb_trans _ _ _ Y Z) in H. discriminate.
Qed.

Lemma fold_min_least (l : list (string * nat)) (x y : string * nat) :
  In y (x :: l) ->
  tuple_ltb y (fold_left (fun m z => if tuple_ltb z m then z else m) l x)
  = false.
Proof.
  intros [<- | I].
  - apply fold_min_below, tuple_ltb_irrefl.
  - revert x. induction l as [ | z l IH]; intros x; [destruct I | ].
    cbn [fold_left]. destruct I as [<- | I]; [ | auto].
    apply fold_min_below.
    destruct (tuple_ltb z x) eqn:Z; [apply tuple_ltb_irrefl | assumption].
Qed.

(** X2.  The box [search] branches on has more than one candidate, and no
    box with more than one candidate has a smaller name in the order of
    Python strings; the numbers of candidates play no part. *)
Theorem chosen_box_has_the_least_name (values : board) (box : string) :
  chosen_box values = Val box ->
  (exists s, In (box, s) values /\ 1 < String.length s)
  /\ forall k s, In (k, s) values -> 1 < String.length s -> str_le box k.
Proof.
  intros H. split; [apply chosen_box_spec; assumption | ].
  intros k s I L. unfold chosen_box in H. bind_inv H. injection H as <-.
  assert (J : In (k, String.length s) (sorted_by_length (boxes_lengths values))).
  { apply sorted_by_length_In, boxes_lengths_In. eauto. }
  destruct (sorted_by_length (boxes_lengths values)) as [ | x l];
    [destruct J | ].
  simpl in E. injection E as <-.
  pose proof (fold_min_least l x _ J) as M. revert M.
  generalize (fold_left (fun m z => if tuple_ltb z m then z else m) l x).
  intros m M. unfold str_le. rewrite String.compare_antisym.
  unfold tuple_ltb in M. cbn [fst snd] in M.
  destruct (String.compare k (fst m)); simpl; congruence.
Qed.

Lemma chosen_box_has_the_least_name_witness :
  (exists s, In ("A1", s) two_pairs_board /\ 1 < String.length s)
  /\ forall k s, In (k, s) two_pairs_board -> 1 < String.length s ->
                 str_le "A1" k.
Proof.
  apply (chosen_box_has_the_least_name two_pairs_board "A1").
  vm_compute. reflexivity.
Defined.

(** ** The two failure values of search *)

Lemma try_values_None (rec : board -> res pyval) (v : board) (box : string)
    (cs : list ascii) :
  try_values rec v box cs = Val PNone <->
  forall value, In value cs ->
    exists a, rec (setitem v box (String value EmptyString)) = Val a
              /\ truthy a = false.
Proof.
  induction cs as [ | c cs IH]; cbn [try_values].
  - split; [intros _ ? [] | reflexivity].
  - split.
    + intros H. bind_inv H. destruct (truthy a) eqn:T.
      * injection H as ->. discriminate.
      * intros value [<- | I]; [eauto | ]. apply IH; assumption.
    + intros H. destruct (H c) as [a [E T]]; [simpl; auto | ].
      rewrite E. cbn [bind]. rewrite T. apply IH.
      intros value I. apply H. simpl. auto.
Qed.

(** X3.  [search] returns [False] exactly when the reduction of its own
    board does: the [False] of a failed branch is never passed on.  It
    returns [None] exactly when the reduced board is not solved and every
    candidate of the chosen box leads to a false result. *)
Theorem search_failure_values (fuel : nat) (values : board) :
  (search (S fuel) values = Val PFalse <->
   reduce_puzzle (S fuel) values = Val PFalse)
  /\ (search (S fuel) values = Val PNone <->
      exists w box s,
        reduce_puzzle (S fuel) values = Val (PDict w)
        /\ all_single w boxes = Val false
        /\ chosen_box w = Val box
        /\ lookup w box = Some s
        /\ forall value, In value (chars s) ->
             exists a, search fuel (setitem w box (String value EmptyString))
                       = Val a
                       /\ truthy a = false).
Proof.
  cbn [search]. split; split.
  - intros H. bind_inv H. destruct a as [w | | ]; [ | reflexivity | discriminate].
    exfalso. bind_inv H. destruct a; [discriminate | ].
    bind_inv H. bind_inv H. apply try_values_result in H.
    destruct H as [H | [value [_ [_ T]]]]; discriminate.
  - intros ->. reflexivity.
  - intros H. bind_inv H. destruct a as [w | | ]; try discriminate.
    bind_inv H. destruct a; [discriminate | ].
    bind_inv H. bind_inv H. apply getitem_Val in E2.
    pose proof (proj1 (try_values_None _ _ _ _) H) as N.
    exists w, a, a0. auto.
  - intros [w [box [s [-> [A [C [L H]]]]]]]. cbn [bind]. rewrite A. cbn [bind].
    rewrite C. cbn [bind]. unfold getitem. rewrite L. cbn [bind].
    apply try_values_None. assumption.
Qed.

(** ** What eliminate and only_choice leave behind *)

Lemma eliminate_peers_clears (c : ascii) (ps : list string) (v v1 : board) :
  eliminate_peers c ps v = Val v1 ->
  forall p s, In p ps -> lookup v1 p = Some s -> contains c s = false.
Proof.
  revert v. induction ps as [ | q ps IH]; simpl; intros v H p s I L.
  - destruct I.
  - bind_inv H. destruct I as [<- | I]; [ | eauto].
    pose proof (eliminate_peers_shrinks _ _ _ _ H) as S.
    destruct (shrinks_lookup_back _ _ _ _ S L) as [t [Lt Sub]].
    unfold assign_value in Lt. rewrite lookup_setitem_same in Lt.
    injection Lt as <-.
    destruct (contains c s) eqn:C; [ | reflexivity].
    apply (subseq_contains _ _ _ Sub) in C.
    rewrite contains_remove_char, Ascii.eqb_refl, andb_false_r in C.
    discriminate.
Qed.

Lemma eliminate_loop_clears (ks : list string) (v v' : board)
    (b : string) (c : ascii) (ps : list string) :
  eliminate_loop ks v = Val v' -> In b ks ->
  lookup v b = Some (String c EmptyString) ->
  lookup v' b = Some (String c EmptyString) ->
  lookup peers b = Some ps ->
  forall p s, In p ps -> lookup v' p = Some s -> contains c s = false.
Proof.
  revert v. induction ks as [ | k ks IH]; cbn [eliminate_loop];
    intros v H I L L' P p s Ip Ls.
  - destruct I.
  - bind_inv H. apply getitem_Val in E.
    assert (X : exists v1, shrinks v1 v /\ eliminate_loop ks v1 = Val v'
                /\ (k = b -> forall q t, In q ps -> lookup v1 q = Some t ->
                             contains c t = false)).
    { destruct a as [ | c0 [ | ? ?]].
      - exists v. split; [apply shrinks_refl | ]. split; [assumption | ].
        intros ->. congruence.
      - bind_inv H. bind_inv H. apply getitem_Val in E0.
        exists a0. split; [eapply eliminate_peers_shrinks; eassumption | ].
        split; [assumption | ]. intros ->.
        rewrite L in E. injection E as <-. rewrite P in E0. injection E0 as <-.
        eapply eliminate_peers_clears. eassumption.
      - exists v. split; [apply shrinks_refl | ]. split; [assumption | ].
        intros ->. congruence. }
    destruct X as [v1 [S1 [H1 K]]].
    pose proof (eliminate_loop_shrinks _ _ _ H1) as S'.
    destruct I as [-> | I].
    + destruct (shrinks_lookup_back _ _ _ _ S' Ls) as [t [Lt Sub]].
      destruct (contains c s) eqn:C; [ | reflexivity].
      apply (subseq_contains _ _ _ Sub) in C.
      rewrite (K eq_refl _ _ Ip Lt) in C. discriminate.
    + destruct (shrinks_lookup _ _ _ _ S1 L) as [t [Lt Sub1]].
      destruct (shrinks_lookup _ _ _ _ S' Lt) as [t' [Lt' Sub2]].
      rewrite L' in Lt'. injection Lt' as <-.
      pose proof (subseq_antisym _ _ Sub1 Sub2) as ->.
      eapply IH; eassumption.
Qed.

(** X4.  When a box holds one digit before [eliminate] and still holds it
    after, no peer of the box has that digit among its candidates in the
    board [eliminate] returns. *)
Theorem eliminate_clears_the_peers (values values' : board) (box : string)
    (c : ascii) (ps : list string) :
  eliminate values = Val values' ->
  lookup values box = Some (String c EmptyString) ->
  lookup values' box = Some (String c EmptyString) ->
  lookup peers box = Some ps ->
  forall p s, In p ps -> lookup values' p = Some s -> contains c s = false.
Proof.
  intros H L. eapply eliminate_loop_clears; try eassumption.
  eapply lookup_In_keys. eassumption.
Qed.

Lemma eliminate_clears_the_peers_witness :
  lookup (grid2values diag_sudoku_grid) "A2" = Some "123456789"
  /\ contains "2" "356789" = false.
Proof.
  split; [reflexivity | ].
  refine (eliminate_clears_the_peers (grid2values diag_sudoku_grid)
            (match eliminate (grid2values diag_sudoku_grid) with
             | Val v => v
             | _ => []
             end)
            "A1" "2" (peers_of "A1") _ _ _ _ "A2" "356789" _ _).
  - vm_compute. reflexivity.
  - reflexivity.
  - vm_compute. reflexivity.
  - vm_compute. reflexivity.
  - apply mem_In. vm_compute. reflexivity.
  - vm_compute. reflexivity.
Defined.

Lemma settles_refl (v : board) : settles v v.
Proof. intros box s L. auto. Qed.

Lemma settles_trans (v2 v1 v : board) :
  settles v1 v -> settles v2 v1 -> settles v2 v.
Proof.
  intros S1 S2 box s L. destruct (S1 box s L) as [L1 | [c [C L1]]].
  - apply S2. assumption.
  - right. exists c. split; [assumption | ].
    destruct (S2 _ _ L1) as [L2 | [d [D L2]]]; [assumption | ].
    simpl in D. destruct (Ascii.eqb c d) eqn:E; [ | discriminate].
    apply Ascii.eqb_eq in E. subst d. assumption.
Qed.

Lemma settles_assign (v : board) (box s : string) (c : ascii) :
  lookup v box = Some s -> contains c s = true ->
  settles (assign_value v box (String c EmptyString)) v.
Proof.
  intros L C b t Lb. unfold assign_value. rewrite lookup_setitem.
  destruct (String.eqb box b) eqn:E; [ | auto].
  apply String.eqb_eq in E. subst b. rewrite L in Lb. injection Lb as <-.
  right. eauto.
Qed.

Lemma only_choice_unit_settles (unit : list string) (ds : list ascii)
    (v v' : board) :
  only_choice_unit unit ds v = Val v' -> settles v' v.
Proof.
  revert v. induction ds as [ | c ds IH]; simpl; intros v H.
  - injection H as <-. apply settles_refl.
  - bind_inv H. destruct a as [ | box [ | ? ?]]; auto.
    destruct (proj1 (boxes_with_value_In _ _ _ _ E box)) as [_ [s [Hs Cs]]];
      [simpl; auto | ].
    eapply settles_trans; [eapply settles_assign; eassumption | auto].
Qed.

Lemma only_choice_loop_settles (us : list (list string)) (v v' : board) :
  only_choice_loop us v = Val v' -> settles v' v.
Proof.
  revert v. induction us as [ | u us IH]; cbn [only_choice_loop]; intros v H.
  - injection H as <-. apply settles_refl.
  - bind_inv H. eapply settles_trans;
      [eapply only_choice_unit_settles; eassumption | auto].
Qed.

(** X5.  [only_choice] leaves a box as it is or reduces it to a single one
    of its candidates; it never leaves a box without candidates that had
    some. *)
Theorem only_choice_settles_boxes (values values' : board) :
  only_choice values = Val values' ->
  settles values' values
  /\ forall box, lookup values' box = Some EmptyString ->
                 lookup values box = Some EmptyString.
Proof.
  intros H. pose proof (only_choice_loop_settles _ _ _ H) as S.
  split; [assumption | ]. intros box L.
  destruct (shrinks_lookup_back _ _ _ _ (only_choice_shrinks _ _ H) L)
    as [s [Ls _]].
  destruct (S _ _ Ls) as [L' | [c [_ L']]]; congruence.
Qed.

Lemma only_choice_settles_boxes_witness :
  settles (match only_choice (grid2values diag_sudoku_grid) with
           | Val v => v
           | _ => []
           end) (grid2values diag_sudoku_grid)
  /\ forall box,
       lookup (match only_choice (grid2values diag_sudoku_grid) with
               | Val v => v
               | _ => []
               end) box = Some EmptyString ->
       lookup (grid2values diag_sudoku_grid) box = Some EmptyString.
Proof.
  apply (only_choice_settles_boxes (grid2values diag_sudoku_grid)).
  vm_compute. reflexivity.
Defined.

(** ** Propagation and the solutions of a board *)

Lemma fitsb_fits (sigma v : board) : fitsb sigma v = true -> fits sigma v.
Proof.
  unfold fitsb. rewrite forallb_forall. intros H box c L.
  specialize (H _ (lookup_In _ _ _ L)). cbn [fst snd] in H.
  destruct (lookup v box) as [s | ]; [eauto | discriminate].
Qed.

Lemma solution_cell (sigma : board) (box : string) :
  solution sigma -> In box boxes ->
  exists c, lookup sigma box = Some (String c EmptyString).
Proof.
  intros [K [A _]] I. rewrite <- K in I.
  destruct (In_keys_lookup _ _ I) as [s L].
  rewrite all_solved_In in A. pose proof (A _ _ (lookup_In _ _ _ L)) as X.
  apply length_one in X. destruct X as [c ->]. eauto.
Qed.

Lemma solution_peers_differ (sigma : board) (k p : string)
    (ps : list string) (c d : ascii) :
  solution sigma -> lookup peers k = Some ps -> In p ps ->
  lookup sigma k = Some (String c EmptyString) ->
  lookup sigma p = Some (String d EmptyString) -> c <> d.
Proof.
  intros [_ [_ [N _]]] P I Lk Lp.
  destruct (no_conflict_spec _ _ _ _ N P I) as [s [t [Ls [Lt D]]]].
  congruence.
Qed.

Lemma solution_Solved (sigma : board) : solution sigma -> Solved sigma.
Proof.
  intros [K [A [N C]]]. apply fixpoint_Solved; try assumption.
  apply eliminate_loop_id; try assumption. rewrite K. apply incl_refl.
Qed.

Lemma assigned_In (v : board) (unit : list string) (c : ascii) :
  In c (assigned v unit) ->
  exists b s, In b unit /\ lookup v b = Some s /\ In c (chars s).
Proof.
  unfold assigned. rewrite in_flat_map. intros [b [I H]].
  destruct (lookup v b) as [s | ] eqn:L; [eauto | destruct H].
Qed.

(** In a solution every digit 1-9 is somewhere in every unit. *)
Lemma solution_has_digit (sigma : board) (unit : list string) (c : ascii) :
  solution sigma -> In unit unitlist -> In c (chars "123456789") ->
  exists b, In b unit /\ lookup sigma b = Some (String c EmptyString).
Proof.
  intros S U I. destruct (solution_Solved _ S) as [_ P].
  pose proof U as U'. rewrite unitlist_explicit in U'.
  destruct (P _ U') as [_ Pu].
  apply (Permutation_in _ (Permutation_sym Pu)) in I.
  apply assigned_In in I. destruct I as [b [s [Ib [L Ic]]]].
  destruct (solution_cell sigma b S) as [d Ld].
  { eapply unit_in_boxes; eassumption. }
  rewrite L in Ld. injection Ld as ->. simpl in Ic.
  destruct Ic as [-> | []]. eauto.
Qed.

Lemma fits_single (sigma v : board) (box : string) (c d : ascii) :
  fits sigma v -> lookup sigma box = Some (String d EmptyString) ->
  lookup v box = Some (String c EmptyString) -> d = c.
Proof.
  intros F Ls Lv. destruct (F _ _ Ls) as [s [L C]].
  rewrite Lv in L. injection L as <-. simpl in C.
  destruct (Ascii.eqb c d) eqn:E; [ | discriminate].
  apply Ascii.eqb_eq in E. auto.
Qed.

Lemma fits_assign (sigma v : board) (box x : string) :
  fits sigma v ->
  (forall d, lookup sigma box = Some (String d EmptyString) ->
             contains d x = true) ->
  fits sigma (assign_value v box x).
Proof.
  intros F H b d L. unfold assign_value. rewrite lookup_setitem.
  destruct (String.eqb box b) eqn:E.
  - apply String.eqb_eq in E. subst b. eauto.
  - apply F. assumption.
Qed.

Lemma eliminate_peers_fits (sigma : board) (c : ascii) (ps : list string)
    (v v1 : board) :
  eliminate_peers c ps v = Val v1 -> fits sigma v ->
  (forall p d, In p ps -> lookup sigma p = Some (String d EmptyString) ->
               d <> c) ->
  fits sigma v1.
Proof.
  revert v. induction ps as [ | q ps IH]; simpl; intros v H F N.
  - injection H as <-. assumption.
  - bind_inv H. apply getitem_Val in E.
    apply (IH _ H); [ | intros p d I; apply N; auto].
    apply fits_assign; [assumption | ]. intros d L.
    destruct (F _ _ L) as [s [Ls C]]. rewrite E in Ls. injection Ls as <-.
    rewrite contains_remove_char, C. simpl.
    apply negb_true_iff, Ascii.eqb_neq. eapply N; eauto.
Qed.

Lemma eliminate_loop_fits (sigma : board) (ks : list string) (v v' : board) :
  solution sigma -> eliminate_loop ks v = Val v' -> fits sigma v ->
  fits sigma v'.
Proof.
  intros S. revert v.
  induction ks as [ | k ks IH]; cbn [eliminate_loop]; intros v H F.
  - injection H as <-. assumption.
  - bind_inv H. apply getitem_Val in E.
    destruct a as [ | c [ | ? ?]]; eauto.
    bind_inv H. bind_inv H. apply getitem_Val in E0.
    apply (IH _ H). eapply eliminate_peers_fits; [eassumption .. | ].
    intros p d I L.
    destruct (solution_cell sigma k S) as [x Lx].
    { rewrite <- keys_peers. eapply lookup_In_keys. eassumption. }
    pose proof (fits_single _ _ _ _ _ F Lx E) as ->.
    intros ->. eapply (solution_peers_differ sigma k p); eauto.
Qed.

Lemma only_choice_unit_fits (sigma : board) (unit : list string)
    (ds : list ascii) (v v' : board) :
  solution sigma -> In unit unitlist -> incl ds (chars "123456789") ->
  only_choice_unit unit ds v = Val v' -> fits sigma v -> fits sigma v'.
Proof.
  intros S U. revert v.
  induction ds as [ | c ds IH]; simpl; intros v I H F.
  - injection H as <-. assumption.
  - assert (I' : incl ds (chars "123456789")).
    { intros x Hx. apply I. simpl. auto. }
    bind_inv H. destruct a as [ | box [ | ? ?]]; eauto.
    apply (IH _ I' H). apply fits_assign; [assumption | ]. intros d L.
    destruct (solution_has_digit sigma unit c S U) as [b [Ib Lb]].
    { apply I. simpl. auto. }
    destruct (F _ _ Lb) as [s [Ls C]].
    assert (J : In b [box]).
    { apply (boxes_with_value_In _ _ _ _ E). eauto. }
    destruct J as [<- | []]. rewrite Lb in L. injection L as <-.
    simpl. rewrite Ascii.eqb_refl. reflexivity.
Qed.

Lemma only_choice_loop_fits (sigma : board) (us : list (list string))
    (v v' : board) :
  solution sigma -> incl us unitlist ->
  only_choice_loop us v = Val v' -> fits sigma v -> fits sigma v'.
Proof.
  intros S. revert v.
  induction us as [ | u us IH]; cbn [only_choice_loop]; intros v I H F.
  - injection H as <-. assumption.
  - bind_inv H. apply (IH _ (fun x Hx => I x (or_intror Hx)) H).
    eapply only_choice_unit_fits; try eassumption.
    + apply I. simpl. auto.
    + apply incl_refl.
Qed.

Lemma naked_twins_fits (sigma v v' : board) :
  solution sigma -> NoDup (keys v) ->
  naked_twins v = Val v' -> fits sigma v -> fits sigma v'.
Proof.
  intros S N H F. unfold naked_twins in H. bind_inv H. bind_inv H.
  rename a into twins, a0 into rs.
  intros box d L. destruct (F _ _ L) as [s [Ls C]].
  exists (strip rs box s). split.
  - eapply apply_removals_lookup; eassumption.
  - apply strip_contains. split; [assumption | ]. intros I.
    apply (values_to_replace_spec _ _ _ E0) in I.
    destruct I as [t1 [t2 [It [[p1 [p2 [P1 [P2 Ip]]]] [D _]]]]].
    pose proof (twins_are_twins _ _ E _ _ It) as T.
    destruct (is_twin_two _ _ _ N T) as [a [b [L1 L2]]].
    destruct (is_twin_boxes _ _ _ T) as [B1 B2].
    destruct T as [_ [[ps [P I2]] _]].
    destruct (solution_cell sigma t1 S B1) as [x Lx].
    destruct (solution_cell sigma t2 S B2) as [y Ly].
    apply intersection_In in Ip. destruct Ip as [Ip1 Ip2].
    pose proof (solution_peers_differ _ _ _ _ _ _ S P I2 Lx Ly) as Dxy.
    pose proof (solution_peers_differ _ _ _ _ _ _ S P1 Ip1 Lx L) as Dxd.
    pose proof (solution_peers_differ _ _ _ _ _ _ S P2 Ip2 Ly L) as Dyd.
    destruct (F _ _ Lx) as [s1 [Ls1 C1]]. rewrite L1 in Ls1.
    injection Ls1 as <-.
    destruct (F _ _ Ly) as [s2 [Ls2 C2]]. rewrite L2 in Ls2.
    injection Ls2 as <-.
    destruct D as [a' [b' [rest [L1' D]]]]. rewrite L1 in L1'.
    injection L1' as <- <- <-.
    simpl in C1, C2.
    destruct (Ascii.eqb_spec a x), (Ascii.eqb_spec a y),
      (Ascii.eqb_spec b x), (Ascii.eqb_spec b y); try discriminate;
      destruct D; congruence.
Qed.

Lemma propagate_fits (sigma v v' : board) :
  solution sigma -> keys v = boxes ->
  propagate v = Val v' -> fits sigma v -> fits sigma v'.
Proof.
  intros S K P F. destruct (propagate_parts _ _ P) as [e [o [E [O T]]]].
  pose proof (shrinks_keys _ _ (eliminate_shrinks _ _ E)) as Ke.
  pose proof (shrinks_keys _ _ (only_choice_shrinks _ _ O)) as Ko.
  eapply naked_twins_fits; try eassumption.
  - rewrite Ko, Ke, K. apply boxes_NoDup.
  - eapply only_choice_loop_fits; try eassumption; [apply incl_refl | ].
    eapply eliminate_loop_fits; eassumption.
Qed.

Lemma fits_no_empty (sigma v : board) :
  solution sigma -> keys v = boxes -> fits sigma v -> has_empty v = false.
Proof.
  intros S K F. destruct (has_empty v) eqn:X; [ | reflexivity].
  apply has_empty_In in X. destruct X as [k I].
  assert (N : NoDup (keys v)) by (rewrite K; apply boxes_NoDup).
  pose proof (In_lookup _ _ _ N I) as L.
  destruct (solution_cell sigma k S) as [c Lc].
  { rewrite <- K. eapply lookup_In_keys. eassumption. }
  destruct (F _ _ Lc) as [s [Ls C]]. rewrite L in Ls. injection Ls as <-.
  discriminate.
Qed.

Lemma stalls_at_fits (sigma v w : board) :
  solution sigma -> keys v = boxes -> stalls_at v w -> fits sigma v ->
  fits sigma w.
Proof.
  intros S K H. induction H as [v v' P C | v v' w P C H IH]; intros F.
  - eapply propagate_fits; eassumption.
  - apply IH.
    + rewrite (shrinks_keys _ _ (propagate_shrinks _ _ P)). assumption.
    + eapply propagate_fits; eassumption.
Qed.

(** X6.  The three propagation steps lose no solution: a filled board that
    obeys the rules and takes each digit from the candidates of the input
    also takes each digit from the candidates of the board returned. *)
Theorem propagation_keeps_solutions (sigma values : board) :
  solution sigma -> keys values = boxes -> fitsb sigma values = true ->
  forall op, In op [eliminate; only_choice; naked_twins] ->
  exists values', op values = Val values' /\ fits sigma values'.
Proof.
  intros S K F op I. apply fitsb_fits in F.
  simpl in I. destruct I as [<- | [<- | [<- | []]]].
  - destruct (eliminate_total _ K) as [v' E]. exists v'.
    split; [assumption | ]. eapply eliminate_loop_fits; eassumption.
  - destruct (only_choice_total _ K) as [v' E]. exists v'.
    split; [assumption | ].
    eapply only_choice_loop_fits; try eassumption. apply incl_refl.
  - destruct (naked_twins_total _ K) as [_ [_ [v' [_ [_ [_ E]]]]]].
    exists v'. split; [assumption | ].
    eapply naked_twins_fits; try eassumption. rewrite K. apply boxes_NoDup.
Qed.

Lemma propagation_keeps_solutions_witness :
  exists values',
    naked_twins one_pair_board = Val values'
    /\ fits (grid2values diag_sudoku_solution) values'.
Proof.
  apply (propagation_keeps_solutions (grid2values diag_sudoku_solution)
           one_pair_board).
  - repeat split; vm_compute; reflexivity.
  - reflexivity.
  - vm_compute. reflexivity.
  - simpl. auto.
Defined.

(** X7.  [reduce_puzzle] does not report a contradiction on a board that
    has a solution: it returns a board, and the solution still takes each
    digit from the candidates of that board. *)
Theorem reduce_puzzle_keeps_solutions (fuel : nat) (sigma values : board) :
  solution sigma -> keys values = boxes -> fitsb sigma values = true ->
  total_len values < fuel ->
  exists w, reduce_puzzle fuel values = Val (PDict w) /\ fits sigma w.
Proof.
  intros S K F T. apply fitsb_fits in F.
  destruct (reduce_puzzle_total fuel values K T) as [w [St E]].
  pose proof (stalls_at_fits _ _ _ S K St F) as Fw.
  exists w. split; [ | assumption]. rewrite E.
  rewrite (fits_no_empty sigma w S); [reflexivity | | assumption].
  rewrite (shrinks_keys _ _ (stalls_at_shrinks _ _ St)). assumption.
Qed.

Lemma reduce_puzzle_keeps_solutions_witness :
  exists w,
    reduce_puzzle 730 (grid2values diag_sudoku_grid) = Val (PDict w)
    /\ fits (grid2values diag_sudoku_solution) w.
Proof.
  apply (reduce_puzzle_keeps_solutions 730
           (grid2values diag_sudoku_solution) (grid2values diag_sudoku_grid)).
  - repeat split; vm_compute; reflexivity.
  - reflexivity.
  - vm_compute. reflexivity.
  - vm_compute. lia.
Defined.

(** ** What search returns *)

Lemma search_node (fuel : nat) (v r : board) :
  search fuel v = Val (PDict r) ->
  shrinks r v
  /\ exists fuel' u, shrinks u v /\ reduce_puzzle fuel' u = Val (PDict r)
                     /\ all_single r boxes = Val true.
Proof.
  revert v. induction fuel as [ | fuel IH]; intros v H; cbn [search] in H.
  - discriminate.
  - bind_inv H. destruct a as [w | | ]; try discriminate.
    bind_inv H. pose proof (reduce_puzzle_dict _ _ _ E) as [St _].
    pose proof (stalls_at_shrinks _ _ St) as Sh. destruct a.
    + injection H as <-. split; [assumption | ].
      exists (S fuel), v. split; [apply shrinks_refl | auto].
    + bind_inv H. bind_inv H. apply getitem_Val in E2.
      apply try_values_result in H.
      destruct H as [H | [value [I [H _]]]]; [discriminate | ].
      apply IH in H. destruct H as [Sr [f' [u [Su X]]]].
      assert (Sn : shrinks (setitem w a (String value EmptyString)) v).
      { eapply shrinks_trans; [ | exact Sh].
        eapply shrinks_setitem; [eassumption | ].
        apply contains_single_subseq, contains_In. assumption. }
      split; [eapply shrinks_trans; eassumption | ].
      exists f', u. split; [eapply shrinks_trans; eassumption | assumption].
Qed.

(** X8.  A board that [search] returns is the input with candidates taken
    away: every digit of the result is a candidate of the input, and a box
    that came with a single digit keeps it. *)
Theorem search_result_fits_the_input (fuel : nat) (values r : board) :
  search fuel values = Val (PDict r) ->
  shrinks r values
  /\ forall box c, In box boxes ->
       lookup values box = Some (String c EmptyString) ->
       lookup r box = Some (String c EmptyString).
Proof.
  intros H. destruct (search_node _ _ _ H) as [S [f [u [_ [_ A]]]]].
  split; [assumption | ]. intros box c I L.
  destruct (all_single_true _ _ A box I) as [d Ld].
  destruct (shrinks_lookup _ _ _ _ S L) as [s [Ls Sub]].
  rewrite Ld in Ls. injection Ls as <-.
  rewrite Ld. f_equal. apply subseq_same_length; [assumption | reflexivity].
Qed.

Lemma search_result_fits_the_input_witness :
  shrinks (grid2values diag_sudoku_solution) (grid2values diag_sudoku_grid)
  /\ forall box c, In box boxes ->
       lookup (grid2values diag_sudoku_grid) box = Some (String c EmptyString) ->
       lookup (grid2values diag_sudoku_solution) box
       = Some (String c EmptyString).
Proof.
  apply (search_result_fits_the_input 730). vm_compute. reflexivity.
Defined.

(** X9.  A board that [search] returns is left as it is by each of the
    three propagation steps. *)
Theorem search_result_is_stable (fuel : nat) (values r : board) :
  keys values = boxes -> search fuel values = Val (PDict r) ->
  eliminate r = Val r /\ only_choice r = Val r /\ naked_twins r = Val r.
Proof.
  intros K H. destruct (search_node _ _ _ H) as [S [f [u [Su [R A]]]]].
  assert (Ku : keys u = boxes) by (rewrite (shrinks_keys _ _ Su); assumption).
  destruct (reduced_solved_fixpoint _ _ _ Ku R A) as [Sr [As E]].
  split; [assumption | ]. split.
  - apply only_choice_id; [ | assumption].
    rewrite (shrinks_keys _ _ S). assumption.
  - apply naked_twins_id. assumption.
Qed.

Lemma search_result_is_stable_witness :
  eliminate (grid2values diag_sudoku_solution)
  = Val (grid2values diag_sudoku_solution)
  /\ only_choice (grid2values diag_sudoku_solution)
     = Val (grid2values diag_sudoku_solution)
  /\ naked_twins (grid2values diag_sudoku_solution)
     = Val (grid2values diag_sudoku_solution).
Proof.
  apply (search_result_is_stable 730 (grid2values diag_sudoku_grid)).
  - reflexivity.
  - vm_compute. reflexivity.
Defined.

Lemma try_values_finds (rec : board -> res pyval) (v : board) (box : string)
    (cs : list ascii) :
  (forall value, In value cs ->
     exists r, rec (setitem v box (String value EmptyString)) = Val r) ->
  (exists value b k s,
      In value cs
      /\ rec (setitem v box (String value EmptyString))
         = Val (PDict ((k, s) :: b))) ->
  exists b, try_values rec v box cs = Val (PDict b).
Proof.
  induction cs as [ | c cs IH]; cbn [try_values]; intros T G.
  - destruct G as [? [? [? [? [[] _]]]]].
  - destruct (T c) as [r E]; [simpl; auto | ]. rewrite E. cbn [bind].
    destruct (truthy r) eqn:Tr.
    + destruct r as [b | | ]; try discriminate. eauto.
    + apply IH; [intros; apply T; simpl; auto | ].
      destruct G as [value [b [k [s [[<- | I] G]]]]].
      * rewrite E in G. injection G as ->. discriminate.
      * eauto 8.
Qed.

Lemma search_finds (fuel : nat) (sigma v : board) :
  solution sigma -> keys v = boxes -> total_len v < fuel -> fits sigma v ->
  exists r, search fuel v = Val (PDict r).
Proof.
  intros Sol. revert v. induction fuel as [ | fuel IH]; intros v K T F; [lia | ].
  cbn [search].
  destruct (reduce_puzzle_total (S fuel) v K T) as [w [St ->]]. cbn [bind].
  pose proof (stalls_at_shrinks _ _ St) as Sh.
  assert (Kw : keys w = boxes) by (rewrite (shrinks_keys _ _ Sh); assumption).
  assert (Nw : NoDup (keys w)) by (rewrite Kw; apply boxes_NoDup).
  pose proof (stalls_at_fits _ _ _ Sol K St F) as Fw.
  rewrite (fits_no_empty _ _ Sol Kw Fw).
  destruct (all_single_total w boxes) as [b A]; [rewrite Kw; apply incl_refl | ].
  rewrite A. cbn [bind]. destruct b; [eauto | ].
  destruct (all_single_false _ _ A) as [box0 [s0 [I0 [L0 N0]]]].
  assert (Z : 1 < String.length s0).
  { destruct s0 as [ | a0 [ | a1 s0]]; simpl in *; try lia.
    exfalso. apply lookup_In in L0.
    assert (Y : has_empty w = true) by (apply has_empty_In; eauto).
    rewrite (fits_no_empty _ _ Sol Kw Fw) in Y. discriminate. }
  destruct (chosen_box_total w box0 s0 (lookup_In _ _ _ L0) Z) as [box C].
  rewrite C. cbn [bind].
  destruct (chosen_box_spec _ _ C) as [s [I L]].
  apply (In_lookup _ _ _ Nw) in I. unfold getitem. rewrite I. cbn [bind].
  assert (Tn : forall value,
             total_len (setitem w box (String value EmptyString)) < fuel).
  { intros value.
    pose proof (total_len_setitem w box s (String value EmptyString) I) as E.
    pose proof (shrinks_total_len _ _ Sh). simpl in E. lia. }
  assert (Kn : forall value,
             keys (setitem w box (String value EmptyString)) = boxes).
  { intros value. rewrite (keys_setitem _ _ _ _ I). assumption. }
  apply try_values_finds.
  - intros value _. apply search_total; auto.
  - destruct (solution_cell sigma box Sol) as [x Lx].
    { rewrite <- Kw. eapply lookup_In_keys. eassumption. }
    destruct (Fw _ _ Lx) as [s' [Ls' Cx]]. rewrite I in Ls'.
    injection Ls' as <-.
    destruct (IH (setitem w box (String x EmptyString))) as [r R]; auto.
    { apply fits_assign; [assumption | ]. intros d Ld.
      rewrite Lx in Ld. injection Ld as <-. simpl.
      rewrite Ascii.eqb_refl. reflexivity. }
    pose proof (search_node _ _ _ R) as [Sr _].
    apply shrinks_keys in Sr. rewrite Kn in Sr.
    destruct r as [ | [k t] r]; [discriminate | ].
    exists x, r, k, t. split; [apply contains_In; assumption | assumption].
Qed.

(** X10.  [search] is complete: on a board that has a solution -- a filled
    board obeying the rules whose digits are candidates of the board -- it
    returns a board, neither [False] nor [None]. *)
Theorem search_finds_a_solution (fuel : nat) (sigma values : board) :
  solution sigma -> keys values = boxes -> fitsb sigma values = true ->
  total_len values < fuel ->
  exists r, search fuel values = Val (PDict r).
Proof.
  intros S K F T. apply fitsb_fits in F. eapply search_finds; eassumption.
Qed.

Lemma search_finds_a_solution_witness :
  exists r, search 730 (grid2values diag_sudoku_grid) = Val (PDict r).
Proof.
  apply (search_finds_a_solution 730 (grid2values diag_sudoku_solution)).
  - repeat split; vm_compute; reflexivity.
  - reflexivity.
  - vm_compute. reflexivity.
  - vm_compute. lia.
Defined.

(** ** A board that lacks a box *)

Lemma lookup_None {V : Type} (d : dict V) (k : string) :
  lookup d k = None <-> ~ In k (keys d).
Proof.
  split.
  - intros H I. destruct (In_keys_lookup _ _ I) as [x L]. congruence.
  - intros N. destruct (lookup d k) as [x | ] eqn:L; [ | reflexivity].
    exfalso. apply N. eapply lookup_In_keys. eassumption.
Qed.

Lemma getitem_outcome {V : Type} (d : dict V) (k : string) :
  getitem d k = Raise KeyError \/ exists x, getitem d k = Val x.
Proof. unfold getitem. destruct (lookup d k); eauto. Qed.

Lemma eliminate_peers_outcome (c : ascii) (ps : list string) (v : board) :
  eliminate_peers c ps v = Raise KeyError
  \/ exists v', eliminate_peers c ps v = Val v'.
Proof.
  revert v. induction ps as [ | p ps IH]; cbn [eliminate_peers]; intros v.
  - eauto.
  - destruct (getitem_outcome v p) as [-> | [s ->]]; cbn [bind]; auto.
Qed.

Lemma eliminate_loop_outcome (ks : list string) (v : board) :
  eliminate_loop ks v = Raise KeyError
  \/ exists v', eliminate_loop ks v = Val v'.
Proof.
  revert v. induction ks as [ | k ks IH]; cbn [eliminate_loop]; intros v.
  - eauto.
  - destruct (getitem_outcome v k) as [-> | [s ->]]; cbn [bind]; auto.
    destruct s as [ | c [ | ? ?]]; try apply IH.
    destruct (getitem_outcome peers k) as [-> | [ps ->]]; cbn [bind]; auto.
    destruct (eliminate_peers_outcome c ps v) as [-> | [v' ->]];
      cbn [bind]; auto.
Qed.

Lemma boxes_with_value_missing (v : board) (c : ascii) (unit : list string)
    (box : string) :
  In box unit -> lookup v box = None ->
  boxes_with_value v c unit = Raise KeyError.
Proof.
  intros I L. induction unit as [ | b unit IH]; simpl; [destruct I | ].
  unfold getitem. destruct I as [-> | I].
  - rewrite L. reflexivity.
  - destruct (lookup v b); [ | reflexivity]. simpl. rewrite IH; auto.
Qed.

Lemma boxes_with_value_outcome (v : board) (c : ascii) (unit : list string) :
  boxes_with_value v c unit = Raise KeyError
  \/ exists found, boxes_with_value v c unit = Val found.
Proof.
  induction unit as [ | b unit IH]; cbn [boxes_with_value].
  - eauto.
  - destruct (getitem_outcome v b) as [-> | [s ->]]; cbn [bind]; auto.
    destruct IH as [-> | [found ->]]; cbn [bind]; eauto.
Qed.

Lemma only_choice_unit_outcome (unit : list string) (ds : list ascii)
    (v : board) :
  only_choice_unit unit ds v = Raise KeyError
  \/ exists v', only_choice_unit unit ds v = Val v'.
Proof.
  revert v. induction ds as [ | c ds IH]; cbn [only_choice_unit]; intros v.
  - eauto.
  - destruct (boxes_with_value_outcome v c unit) as [-> | [found ->]];
      cbn [bind]; auto.
    destruct found as [ | box [ | ? ?]]; apply IH.
Qed.

Lemma only_choice_loop_missing (us : list (list string)) (v : board)
    (box : string) :
  lookup v box = None -> (exists u, In u us /\ In box u) ->
  only_choice_loop us v = Raise KeyError.
Proof.
  revert v. induction us as [ | u us IH]; cbn [only_choice_loop];
    intros v L [u0 [Iu Ib]].
  - destruct Iu.
  - destruct Iu as [<- | Iu].
    + unfold chars. cbn [list_ascii_of_string only_choice_unit].
      rewrite (boxes_with_value_missing _ _ _ _ Ib L). reflexivity.
    + destruct (only_choice_unit_outcome u (chars "123456789") v)
        as [-> | [v' E]]; [reflexivity | ].
      rewrite E. cbn [bind]. apply IH; [ | eauto].
      apply lookup_None.
      rewrite (shrinks_keys _ _ (only_choice_unit_shrinks _ _ _ _ E)).
      apply lookup_None. assumption.
Qed.

Lemma box_in_a_unit (box : string) :
  In box boxes -> exists u, In u unitlist /\ In box u.
Proof.
  intros I.
  assert (C : forallb (fun b => existsb (fun u => mem b u) unitlist) boxes
              = true) by (vm_compute; reflexivity).
  rewrite forallb_forall in C. specialize (C _ I).
  apply existsb_exists in C. destruct C as [u [Iu M]].
  exists u. split; [assumption | apply mem_In; assumption].
Qed.

(** X11.  On a dictionary that lacks one of the 81 boxes [only_choice]
    raises [KeyError], and so do [reduce_puzzle] and [search]: a board cut
    short is a fault, not a failure value. *)
Theorem missing_box_raises_KeyError (values : board) (box : string) :
  In box boxes -> lookup values box = None ->
  only_choice values = Raise KeyError
  /\ forall fuel,
       reduce_puzzle (S fuel) values = Raise KeyError
       /\ search (S fuel) values = Raise KeyError.
Proof.
  intros I L. pose proof (box_in_a_unit _ I) as U.
  split; [apply only_choice_loop_missing with box; assumption | ].
  assert (P : propagate values = Raise KeyError).
  { unfold propagate, eliminate.
    destruct (eliminate_loop_outcome (keys values) values) as [-> | [e E]];
      [reflexivity | ].
    rewrite E. cbn [bind]. unfold only_choice.
    rewrite (only_choice_loop_missing unitlist e box); [reflexivity | | exact U].
    apply lookup_None. rewrite (shrinks_keys _ _ (eliminate_loop_shrinks _ _ _ E)).
    apply lookup_None. assumption. }
  intros fuel.
  assert (R : reduce_puzzle (S fuel) values = Raise KeyError).
  { unfold reduce_puzzle. cbn [reduce_loop]. rewrite P. reflexivity. }
  split; [assumption | ]. cbn [search]. rewrite R. reflexivity.
Qed.

Lemma missing_box_raises_KeyError_witness :
  only_choice (grid2values short_grid) = Raise KeyError
  /\ forall fuel,
       reduce_puzzle (S fuel) (grid2values short_grid) = Raise KeyError
       /\ search (S fuel) (grid2values short_grid) = Raise KeyError.
Proof.
  apply (missing_box_raises_KeyError (grid2values short_grid) "A3").
  - vm_compute. tauto.
  - reflexivity.
Defined.

(** ** The order in which Python walks its sets *)

Lemma setitem_comm (v : board) (p q x y : string) :
  p <> q -> In p (keys v) -> In q (keys v) ->
  setitem (setitem v p x) q y = setitem (setitem v q y) p x.
Proof.
  intros N. induction v as [ | [k z] v IH]; simpl; intros Ip Iq.
  - destruct Ip.
  - destruct (String.eqb k p) eqn:Ep; destruct (String.eqb k q) eqn:Eq;
      simpl; rewrite ?Ep, ?Eq; try reflexivity.
    + apply String.eqb_eq in Ep, Eq. congruence.
    + apply String.eqb_neq in Ep, Eq. f_equal. apply IH; tauto.
Qed.

(** X12.  The inner loop of [eliminate] walks the set [peers[box]]; the
    board it leaves, or the [KeyError] it raises, is the same whatever the
    order in which the set is walked. *)
Theorem eliminate_peers_any_order (c : ascii) (ps ps' : list string)
    (values : board) :
  Permutation ps ps' ->
  eliminate_peers c ps values = eliminate_peers c ps' values.
Proof.
  intros P. revert values.
  induction P as [ | x l l' P IH | x y l | l l' l'' P1 IH1 P2 IH2];
    intros v.
  - reflexivity.
  - cbn [eliminate_peers]. destruct (getitem v x); cbn [bind]; auto.
  - cbn [eliminate_peers]. unfold getitem, assign_value.
    destruct (String.eqb_spec x y) as [-> | N]; [reflexivity | ].
    destruct (lookup v x) as [sx | ] eqn:Lx;
      destruct (lookup v y) as [sy | ] eqn:Ly; cbn [bind];
      rewrite ?lookup_setitem_other by congruence;
      rewrite ?Lx, ?Ly; cbn [bind]; try reflexivity.
    rewrite setitem_comm;
      [reflexivity | congruence | eapply lookup_In_keys; eassumption ..].
  - rewrite IH1. apply IH2.
Qed.

Lemma eliminate_peers_any_order_witness :
  eliminate_peers "2" ["A2"; "B1"; "I9"] (grid2values diag_sudoku_grid)
  = eliminate_peers "2" ["I9"; "A2"; "B1"] (grid2values diag_sudoku_grid).
Proof.
  apply (eliminate_peers_any_order "2"). 
  apply Permutation_sym, (Permutation_cons_app ["A2"; "B1"] []).
  apply Permutation_refl.
Defined.

Lemma string_filter_ext (f g : ascii -> bool) (s : string) :
  (forall a, contains a s = true -> f a = g a) ->
  string_filter f s = string_filter g s.
Proof.
  induction s as [ | a s IH]; simpl; intros H; [reflexivity | ].
  rewrite (H a) by (rewrite Ascii.eqb_refl; reflexivity).
  rewrite IH; [reflexivity | ].
  intros b C. apply H. rewrite C. destruct (Ascii.eqb a b); reflexivity.
Qed.

Lemma string_filter_remove_char (f : ascii -> bool) (c : ascii) (s : string) :
  string_filter f (remove_char c s)
  = string_filter (fun a => negb (Ascii.eqb a c) && f a) s.
Proof.
  induction s as [ | a s IH]; simpl; [reflexivity | ].
  destruct (Ascii.eqb a c); simpl; rewrite IH; reflexivity.
Qed.

Lemma string_filter_all (s : string) : string_filter (fun _ => true) s = s.
Proof. induction s; simpl; congruence. Qed.

(** What a list of removals leaves of a string, as a filter. *)
Lemma strip_filter (rs : list removal) (box s : string) :
  strip rs box s
  = string_filter
      (fun a => negb (existsb (fun r => String.eqb (fst r) box
                                        && Ascii.eqb (snd r) a) rs)) s.
Proof.
  unfold strip. revert s. induction rs as [ | [b c] rs IH]; intros s.
  - simpl. symmetry. apply string_filter_all.
  - cbn [fold_left fst snd existsb]. rewrite IH.
    destruct (String.eqb b box); simpl.
    + rewrite string_filter_remove_char. apply string_filter_ext.
      intros a _. rewrite (Ascii.eqb_sym c a), negb_orb. reflexivity.
    + reflexivity.
Qed.

Lemma strip_same_set (rs rs' : list removal) (box s : string) :
  (forall d, In (box, d) rs <-> In (box, d) rs') ->
  strip rs box s = strip rs' box s.
Proof.
  intros H. rewrite !strip_filter. apply string_filter_ext. intros a _.
  f_equal.
  assert (X : forall l, existsb (fun r => String.eqb (fst r) box
                                          && Ascii.eqb (snd r) a) l = true
                        <-> In (box, a) l).
  { intros l. rewrite existsb_exists. split.
    - intros [[b c] [I E]]. apply andb_true_iff in E. destruct E as [E1 E2].
      apply String.eqb_eq in E1. apply Ascii.eqb_eq in E2.
      simpl in *. subst. assumption.
    - intros I. exists (box, a). split; [assumption | ]. simpl.
      rewrite String.eqb_refl, Ascii.eqb_refl. reflexivity. }
  pose proof (X rs) as X1. pose proof (X rs') as X2. specialize (H a).
  revert X1 X2.
  generalize (existsb (fun r => String.eqb (fst r) box
                                && Ascii.eqb (snd r) a) rs).
  generalize (existsb (fun r => String.eqb (fst r) box
                                && Ascii.eqb (snd r) a) rs').
  intros [ | ] [ | ] X1 X2; try reflexivity; exfalso.
  - assert (B : false = true) by (apply X1, H, X2; reflexivity).
    discriminate.
  - assert (B : false = true) by (apply X2, H, X1; reflexivity).
    discriminate.
Qed.

(** The removal loop, as one pass over the board. *)
Lemma apply_removals_map (rs : list removal) (v v' : board) :
  NoDup (keys v) -> apply_removals rs v = Val v' ->
  v' = map (fun kv => (fst kv, strip rs (fst kv) (snd kv))) v.
Proof.
  intros N A. pose proof (apply_removals_shrinks _ _ _ A) as S.
  assert (L : forall k s, In (k, s) v -> lookup v' k = Some (strip rs k s)).
  { intros k s I. eapply apply_removals_lookup; [eassumption | ].
    apply In_lookup; assumption. }
  assert (N' : NoDup (keys v')) by (rewrite (shrinks_keys _ _ S); assumption).
  clear A. revert N N' L.
  induction S as [ | [k' s'] [k s] v' v [Hk _] S IH]; intros N N' L.
  - reflexivity.
  - simpl in Hk. subst k'. cbn [map fst snd].
    pose proof (L k s (or_introl eq_refl)) as Lk. simpl in Lk.
    rewrite String.eqb_refl in Lk. injection Lk as ->.
    f_equal. inversion N as [ | ? ? Nk Nv]; subst.
    inversion N' as [ | ? ? Nk' Nv']; subst.
    apply IH; try assumption.
    intros k0 s0 I. pose proof (L k0 s0 (or_intror I)) as L0. simpl in L0.
    destruct (String.eqb_spec k k0) as [-> | _]; [ | assumption].
    exfalso. apply Nk. change k0 with (fst (k0, s0)). apply in_map. assumption.
Qed.

Lemma peers_sym (a b : string) (ps : list string) :
  lookup peers a = Some ps -> In b ps ->
  exists ps', lookup peers b = Some ps' /\ In a ps'.
Proof.
  intros L I. apply lookup_In in L.
  assert (C : forallb (fun ap =>
                forallb (fun b => match lookup peers b with
                                  | Some ps' => mem (fst ap) ps'
                                  | None => false
                                  end) (snd ap)) peers = true)
    by (vm_compute; reflexivity).
  rewrite forallb_forall in C. specialize (C _ L). cbn [fst snd] in C.
  rewrite forallb_forall in C. specialize (C _ I).
  destruct (lookup peers b) as [ps' | ]; [ | discriminate].
  exists ps'. split; [reflexivity | apply mem_In; assumption].
Qed.

Lemma is_twin_sym (v : board) (t1 t2 : string) :
  NoDup (keys v) -> is_twin v t1 t2 -> is_twin v t2 t1.
Proof.
  intros N [D [[ps [P I]] [s [L1 L2]]]].
  apply doubles_In in D. destruct D as [s' [I' Len]].
  apply (In_lookup _ _ _ N) in I'. rewrite L1 in I'. injection I' as <-.
  split; [ | split].
  - apply doubles_In. exists s. split; [apply lookup_In; assumption | assumption].
  - apply (peers_sym _ _ _ P I).
  - eauto.
Qed.

Lemma common_peer_sym (t1 t2 box : string) :
  common_peer t1 t2 box -> common_peer t2 t1 box.
Proof.
  intros [p1 [p2 [L1 [L2 I]]]]. exists p2, p1.
  split; [assumption | ]. split; [assumption | ].
  apply intersection_In. apply intersection_In in I. tauto.
Qed.

Lemma twin_digit_sym (v : board) (t1 t2 : string) (d : ascii) :
  is_twin v t1 t2 -> twin_digit v t1 d -> twin_digit v t2 d.
Proof.
  intros [_ [_ [s [L1 L2]]]] [a [b [rest [L D]]]].
  exists a, b, rest. split; [congruence | assumption].
Qed.

(** The removals the code records are the ones the input board prescribes. *)
Lemma removals_prescribed (v : board) (twins : list pair)
    (rs : list removal) :
  NoDup (keys v) ->
  find_twins v (doubles v) [] = Val twins ->
  values_to_replace v twins = Val rs ->
  forall box d, In (box, d) rs <-> prescribed v box d.
Proof.
  intros N F R box d. rewrite (values_to_replace_spec _ _ _ R). split.
  - intros [t1 [t2 [I X]]]. exists t1, t2.
    split; [eapply twins_are_twins; eassumption | assumption].
  - intros [t1 [t2 [T [C [D X]]]]].
    destruct (twins_complete _ _ F _ _ T) as [I | I].
    + exists t1, t2. auto.
    + exists t2, t1. split; [assumption | ].
      split; [apply common_peer_sym; assumption | ].
      split; [eapply twin_digit_sym; eassumption | assumption].
Qed.

(** X13.  [naked_twins] walks Python sets: the set of twin pairs, each pair
    in one of its two orders, and the set of shared peers.  The board it
    returns is the same for every list of removals that holds exactly the
    removals the input board prescribes, in whatever order and however
    often. *)
Theorem naked_twins_any_order (values : board) :
  keys values = boxes ->
  exists values',
    naked_twins values = Val values'
    /\ forall to_replace,
         (forall box d, In (box, d) to_replace <-> prescribed values box d) ->
         apply_removals to_replace values = Val values'.
Proof.
  intros K.
  assert (N : NoDup (keys values)) by (rewrite K; apply boxes_NoDup).
  destruct (naked_twins_total _ K) as [twins [rs [v' [F [R [A T]]]]]].
  exists v'. split; [assumption | ]. intros rs' H.
  pose proof (removals_prescribed _ _ _ N F R) as P.
  destruct (apply_removals_total rs' values) as [v'' A'].
  { intros [box d] I. apply H in I.
    destruct I as [_ [_ [_ [_ [_ [s [L _]]]]]]].
    eapply lookup_In_keys. eassumption. }
  rewrite A'. f_equal.
  rewrite (apply_removals_map _ _ _ N A), (apply_removals_map _ _ _ N A').
  apply map_ext. intros [k s]. cbn [fst snd]. f_equal.
  apply strip_same_set. intros d. rewrite H, P. tauto.
Qed.

Lemma naked_twins_any_order_witness :
  exists values',
    naked_twins two_pairs_board = Val values'
    /\ forall to_replace,
         (forall box d,
             In (box, d) to_replace <-> prescribed two_pairs_board box d) ->
         apply_removals to_replace two_pairs_board = Val values'.
Proof.
  apply (naked_twins_any_order two_pairs_board). reflexivity.
Defined.

(** ** solve, from the grid *)

(** X14.  When [solve] returns a board for a grid of 81 characters, each a
    digit 1-9 or a dot, the board is solved -- one digit per box, every unit
    a permutation of 1-9 -- and it has the digits of the grid in their
    boxes: it is the parsed grid with candidates taken away. *)
Theorem solve_respects_the_grid (fuel : nat) (grid : string) (r : board) :
  String.length grid = 81 ->
  forallb (fun c => contains c ".123456789") (chars grid) = true ->
  solve fuel grid = Val (PDict r) ->
  Solved r /\ shrinks r (grid2values grid).
Proof.
  intros L A H. destruct (grid2values_well_formed _ L A) as [K C].
  destruct (search_returns _ _ _ K C H) as [Kr [As [Cr E]]].
  split; [apply fixpoint_Solved; assumption | ].
  apply (search_node _ _ _ H).
Qed.

Lemma solve_respects_the_grid_witness :
  Solved (grid2values diag_sudoku_solution)
  /\ shrinks (grid2values diag_sudoku_solution) (grid2values diag_sudoku_grid).
Proof.
  apply (solve_respects_the_grid 730 diag_sudoku_grid);
    vm_compute; reflexivity.
Defined.

(** ** Twin pairs, in the words of the game *)

Lemma peers_of_spec (x b : string) :
  In b (peers_of x) <->
  x <> b /\ exists u, In u unitlist /\ In x u /\ In b u.
Proof.
  unfold peers_of, units_of.
  rewrite filter_In, nodup_In, in_concat, negb_true_iff, String.eqb_neq.
  split.
  - intros [[u [Hu Hb]] N]. apply filter_In in Hu. destruct Hu as [Hu Hx].
    apply mem_In in Hx. split; [congruence | eauto].
  - intros [N [u [Hu [Hx Hb]]]]. split; [ | congruence].
    exists u. split; [ | assumption]. apply filter_In.
    split; [assumption | apply mem_In; assumption].
Qed.

(** The table [peers] holds the peers of the game. *)
Lemma peer_of_peers (a b : string) :
  peer_of a b <-> exists ps, lookup peers a = Some ps /\ In b ps.
Proof.
  unfold peer_of. rewrite <- unitlist_explicit. split.
  - intros [N [u [Hu [Ha Hb]]]].
    destruct (peers_total a) as [ps L]; [eapply unit_in_boxes; eassumption | ].
    exists ps. split; [assumption | ].
    rewrite peers_tabulated in L. apply lookup_tabulate in L.
    destruct L as [_ ->]. apply (proj2 (peers_of_spec a b)). eauto.
  - intros [ps [L I]]. rewrite peers_tabulated in L.
    apply lookup_tabulate in L. destruct L as [_ ->].
    exact (proj1 (peers_of_spec a b) I).
Qed.

Lemma twin_pair_is_twin (v : board) (a b : string) :
  NoDup (keys v) -> twin_pair v a b <-> is_twin v a b.
Proof.
  intros N. unfold twin_pair, is_twin. rewrite peer_of_peers, doubles_In.
  split.
  - intros [[s [L1 [Len L2]]] P]. split; [ | split]; eauto.
    exists s. split; [apply lookup_In; assumption | assumption].
  - intros [[s' [I Len]] [P [s [L1 L2]]]]. split; [ | assumption].
    apply (In_lookup _ _ _ N) in I. rewrite L1 in I. injection I as <-.
    eauto.
Qed.




(** On the board with the pairs A1/A2 and A9/I9 the detection finds those
    two pairs and nothing else. *)
Lemma two_pairs_are_found :
  twin_pair two_pairs_board "A1" "A2" /\ twin_pair two_pairs_board "A9" "I9"
  /\ find_twins two_pairs_board (doubles two_pairs_board) []
     = Val [("A1", "A2"); ("A9", "I9")].
Proof.
  assert (N : NoDup (keys two_pairs_board)) by apply boxes_NoDup.
  split; [ | split; [ | vm_compute; reflexivity]];
    apply (twin_pair_is_twin _ _ _ N);
    (split; [apply doubles_In; eexists; split;
               [apply lookup_In; vm_compute; reflexivity | reflexivity]
            | split; [eexists; split; [vm_compute; reflexivity
                                       | apply mem_In; vm_compute; reflexivity]
                     | eexists; split; vm_compute; reflexivity]]).
Qed.

(** ** sorted, as Python has it *)

Lemma insert_by_length_filter (n : nat) (x : string * nat)
    (l : list (string * nat)) :
  filter (fun y => snd y =? n)%nat (insert_by_length x l)
  = filter (fun y => snd y =? n)%nat (x :: l).
Proof.
  induction l as [ | y l IH]; cbn [insert_by_length]; [reflexivity | ].
  destruct (Nat.leb_spec (snd x) (snd y)) as [L | L]; [reflexivity | ].
  cbn [filter] in *. rewrite IH.
  destruct (Nat.eqb_spec (snd x) n) as [Ex | Nx];
    destruct (Nat.eqb_spec (snd y) n) as [Ey | Ny]; try reflexivity.
  lia.
Qed.

(** The sort is stable: entries of one length keep their order. *)
Lemma sorted_by_length_stable (n : nat) (l : list (string * nat)) :
  filter (fun y => snd y =? n)%nat (sorted_by_length l)
  = filter (fun y => snd y =? n)%nat l.
Proof.
  unfold sorted_by_length. induction l as [ | x l IH]; [reflexivity | ].
  cbn [fold_right]. rewrite insert_by_length_filter. cbn [filter].
  rewrite IH. reflexivity.
Qed.

Lemma sorted_by_length_sorted (l : list (string * nat)) :
  forall i j a b, i < j ->
    nth_error (sorted_by_length l) i = Some a ->
    nth_error (sorted_by_length l) j = Some b -> snd a <= snd b.
Proof.
  assert (I : forall x s,
             (forall i j a b, i < j -> nth_error s i = Some a ->
                nth_error s j = Some b -> snd a <= snd b) ->
             forall i j a b, i < j ->
               nth_error (insert_by_length x s) i = Some a ->
               nth_error (insert_by_length x s) j = Some b ->
               snd a <= snd b).
  { intros x s. induction s as [ | y s IH]; intros H i j a b Lt Ha Hb.
    - simpl in *. destruct i, j; try lia; simpl in *;
        try destruct j; try discriminate.
    - cbn [insert_by_length] in Ha, Hb.
      destruct (Nat.leb_spec (snd x) (snd y)) as [L | L].
      + destruct i as [ | i]; simpl in Ha.
        * injection Ha as <-. destruct j as [ | j]; [lia | ]. simpl in Hb.
          destruct j as [ | j]; simpl in Hb.
          -- injection Hb as <-. assumption.
          -- pose proof (H 0 (S j) y b (Nat.lt_0_succ _) eq_refl Hb). lia.
        * destruct j as [ | j]; [lia | ]. simpl in Hb.
          apply (H i j a b); [lia | assumption | assumption].
      + destruct i as [ | i]; simpl in Ha.
        * injection Ha as <-. destruct j as [ | j]; [lia | ]. simpl in Hb.
          apply nth_error_In, insert_by_length_In in Hb.
          destruct Hb as [-> | Hb]; [lia | ].
          apply In_nth_error in Hb. destruct Hb as [k Hk].
          apply (H 0 (S k) y b); [lia | reflexivity | assumption].
        * destruct j as [ | j]; [lia | ]. simpl in Hb.
          apply (IH (fun i j a b Lt Ha Hb =>
                       H (S i) (S j) a b (proj1 (Nat.succ_lt_mono _ _) Lt)
                         Ha Hb) i j); [lia | assumption | assumption]. }
  unfold sorted_by_length. induction l as [ | x l IH]; cbn [fold_right].
  - intros i j a b _ Ha. destruct i; discriminate.
  - apply I. assumption.
Qed.

Lemma sorted_by_length_example :
  sorted_by_length [("A1", 2); ("A2", 2); ("A3", 3); ("A4", 2)]
  = [("A1", 2); ("A2", 2); ("A4", 2); ("A3", 3)].
Proof. reflexivity. Qed.
